(** * Empirical return periods and annual exceedance probabilities

    A shallow embedding of the arithmetic core of the two precipitation
    notebooks:

    - the synthetic-precipitation notebook, cells "Extracting Rainfall Days
      and Computing Probabilities", "Return Period Analysis" and "Annual
      Exceedance Probability" ([dfwet], [p_wetdays], [df_sorted], [rank],
      [return_period], [probability], [probability_annual_exceedance]);
    - the Tenerife notebook, cell "Estimating Return Period Using the Fitted
      Gamma Distribution" ([p_annual], [return_period_model], and the cell
      as a whole, [return_period_cell], from the series and the value of the
      fitted distribution function at the threshold);
    - the deterministic part of the synthetic generator,
      [precipitation = wetday * rainfall] ([synthetic_precipitation]), with
      the random draws as inputs.

    Numbers.  A numpy [float64] is modelled twice.  [Numpy.float64] holds a
    finite value as an exact rational ([Qc], canonical fractions, so that
    equality is plain equality), next to the three special values [+inf],
    [-inf] and [nan] that numpy produces instead of raising; rounding,
    overflow and signed zeros are absent from it, and a statement about
    its finite values is a statement of exact arithmetic.  [Binary64] holds
    the same cells on IEEE binary64 numbers, where every operation rounds;
    equalities that exact arithmetic grants and rounding breaks are decided
    there.

    Errors.  Python raises; the embedding returns [Raise e] in the small
    error monad [outcome].

    Sorting.  The notebook calls [DataFrame.sort_values] with its default
    algorithm.  The embedding takes that call as an interface
    ([SortValues]) carrying only what every sorting kind of pandas provides:
    the result is a permutation of the rows, in non-increasing order of the
    key.  [sort_values_stable] is the instance that pandas offers under
    [kind='stable']; [sort_values_quicksort] is the default
    [kind='quicksort'] as numpy runs it on frames of at most eight rows. *)

From Stdlib Require Import ZArith QArith Qcanon List Permutation Sorted Lia Lqa Bool Floats.
Import ListNotations.

Local Open Scope Qc_scope.

(** ** Python exceptions and the error monad *)

Inductive exn : Set :=
| ZeroDivisionError
| ValueError.

Inductive outcome (A : Type) : Type :=
| Ok (a : A)
| Raise (e : exn).

Arguments Ok {A} a.
Arguments Raise {A} e.

Definition bind {A B : Type} (c : outcome A) (k : A -> outcome B) : outcome B :=
  match c with
  | Ok a => k a
  | Raise e => Raise e
  end.

Notation "x <- c ;; k" := (bind c (fun x => k))
  (at level 61, c at next level, right associativity).

(** ** numpy's float64, without rounding *)

Module Numpy.

Inductive float64 : Set :=
| Fin (q : Qc)
| PInf
| NInf
| NaN.

Definition of_int (z : Z) : float64 := Fin (Q2Qc (inject_Z z)).

Definition isfinite (x : float64) : bool :=
  match x with
  | Fin _ => true
  | _ => false
  end.

(** [x / y] on arrays: a zero divisor gives an infinity or [nan]. *)
Definition true_divide (x y : float64) : float64 :=
  match x, y with
  | NaN, _ | _, NaN => NaN
  | Fin a, Fin b =>
      match b ?= 0 with
      | Eq => match a ?= 0 with
              | Eq => NaN
              | Gt => PInf
              | Lt => NInf
              end
      | _ => Fin (a / b)
      end
  | Fin _, _ => Fin 0
  | PInf, Fin b => match b ?= 0 with Lt => NInf | _ => PInf end
  | NInf, Fin b => match b ?= 0 with Lt => PInf | _ => NInf end
  | _, _ => NaN
  end.

Definition inf_times (positive : bool) (a : Qc) : float64 :=
  match a ?= 0 with
  | Eq => NaN
  | Gt => if positive then PInf else NInf
  | Lt => if positive then NInf else PInf
  end.

(** [x * y] *)
Definition multiply (x y : float64) : float64 :=
  match x, y with
  | NaN, _ | _, NaN => NaN
  | Fin a, Fin b => Fin (a * b)
  | Fin a, PInf | PInf, Fin a => inf_times true a
  | Fin a, NInf | NInf, Fin a => inf_times false a
  | PInf, PInf | NInf, NInf => PInf
  | PInf, NInf | NInf, PInf => NInf
  end.

(** [x - y] *)
Definition subtract (x y : float64) : float64 :=
  match x, y with
  | NaN, _ | _, NaN => NaN
  | Fin a, Fin b => Fin (a - b)
  | Fin _, PInf => NInf
  | Fin _, NInf => PInf
  | PInf, Fin _ | PInf, NInf => PInf
  | NInf, Fin _ | NInf, PInf => NInf
  | PInf, PInf | NInf, NInf => NaN
  end.

(** [x ** n] for an integer exponent [n >= 0] *)
Definition power (x : float64) (n : nat) : float64 :=
  match n with
  | O => Fin 1
  | S _ =>
      match x with
      | Fin a => Fin (a ^ n)
      | PInf => PInf
      | NInf => if Nat.even n then PInf else NInf
      | NaN => NaN
      end
  end.

(** [np.arange(start, stop)] on integers *)
Definition arange (start stop : Z) : list Z :=
  map (fun k => (start + Z.of_nat k)%Z) (seq 0 (Z.to_nat (stop - start))).

End Numpy.

Import Numpy.

(** Python's [a / b] on two [int]s: raises on a zero divisor. *)
Definition py_truediv (a b : Z) : outcome float64 :=
  if (b =? 0)%Z then Raise ZeroDivisionError
  else Ok (Fin (Q2Qc (inject_Z a) / Q2Qc (inject_Z b))).

(** ** The data frame of the synthetic-precipitation notebook *)

(** One row of [df]: the columns [day] and [precipitation]. *)
Record row : Set := { day : Z; precipitation : Qc }.

(** [pd.DataFrame({'day': range(1, size + 1), 'precipitation': precipitation})] *)
Definition df (amounts : list Qc) : list row :=
  map (fun '(d, x) => {| day := d; precipitation := x |})
      (combine (arange 1 (Z.of_nat (length amounts) + 1)) amounts).

(** [x > 0] on one entry of the column *)
Definition gt_zero (x : Qc) : bool :=
  match 0 ?= x with
  | Lt => true
  | _ => false
  end.

(** [df[df.precipitation > 0]]: boolean-mask selection keeps the order. *)
Definition dfwet (d : list row) : list row :=
  filter (fun r => gt_zero (precipitation r)) d.

(** [s.size] *)
Definition size {A : Type} (s : list A) : Z := Z.of_nat (length s).

(** The key order of [sort_values(..., ascending=False)]. *)
Definition descending (r s : row) : Prop := precipitation s <= precipitation r.

(** [DataFrame.sort_values('precipitation', ascending=False)] with the
    default [kind]: what any sorting algorithm of pandas guarantees. *)
Class SortValues : Type := {
  sort_values : list row -> list row;
  sort_values_perm : forall d, Permutation d (sort_values d);
  sort_values_sorted : forall d, StronglySorted descending (sort_values d)
}.

(** [DataFrame.insert(loc, column, value)] with an array for [value]: the
    array must be as long as the frame's index. *)
Definition insert {A : Type} (frame : list row) (value : list A) : outcome (list A) :=
  if (length value =? length frame)%nat then Ok value else Raise ValueError.

(** The names the three cells leave bound. [df_sorted] holds the columns
    [day] and [precipitation]; the inserted columns [rank],
    ['return period'] and ['probability'] are kept next to it, row [i] of
    the frame being entry [i] of each. *)
Record ranked : Set := {
  n_days : Z;
  n_wet_days : Z;
  p_wetdays : float64;
  df_sorted : list row;
  rank : list Z;
  return_period : list float64;
  probability : list float64;
  probability_annual_exceedance : list float64
}.

Section Estimator.

Context `{SortValues}.

Definition estimator (amounts : list Qc) : outcome ranked :=
  let d := df amounts in
  (* cell: Extracting Rainfall Days and Computing Probabilities *)
  let dfwet := dfwet d in
  let n_days := size d in
  let n_wet_days := size dfwet in
  p_wetdays <- py_truediv n_wet_days n_days ;;
  (* cell: Return Period Analysis *)
  let df_sorted := sort_values dfwet in
  let rank := arange 1 (n_wet_days + 1) in
  rank <- insert df_sorted rank ;;
  let return_period :=
    map (fun m => true_divide (of_int (n_wet_days + 1)) (of_int m)) rank in
  let probability := map (fun t => true_divide (of_int 1) t) return_period in
  return_period <- insert df_sorted return_period ;;
  probability <- insert df_sorted probability ;;
  (* cell: Annual Exceedance Probability *)
  let probability_annual_exceedance :=
    map (fun p => subtract (of_int 1)
                    (power (subtract (of_int 1) (multiply p p_wetdays)) 365))
        probability in
  Ok {| n_days := n_days;
        n_wet_days := n_wet_days;
        p_wetdays := p_wetdays;
        df_sorted := df_sorted;
        rank := rank;
        return_period := return_period;
        probability := probability;
        probability_annual_exceedance := probability_annual_exceedance |}.

End Estimator.

(** ** The model-based return period of the Tenerife notebook *)

(** [p_annual = 1 - (1 - p_daily*p_wet)**365] *)
Definition p_annual (p_daily p_wet : float64) : float64 :=
  subtract (of_int 1) (power (subtract (of_int 1) (multiply p_daily p_wet)) 365).

(** [return_period_model = 1/p_annual] *)
Definition return_period_model (p_daily p_wet : float64) : float64 :=
  true_divide (of_int 1) (p_annual p_daily p_wet).

(** ** A stable instance of the sorting interface *)

(** [x < y] on keys *)
Definition key_ltb (x y : Qc) : bool :=
  match x ?= y with
  | Lt => true
  | _ => false
  end.

(** Insertion of [r] in front of the first row whose key is not larger:
    [r] stays ahead of the rows with an equal key. *)
Fixpoint insert_row (r : row) (l : list row) : list row :=
  match l with
  | [] => [r]
  | s :: l' =>
      if key_ltb (precipitation r) (precipitation s)
      then s :: insert_row r l'
      else r :: l
  end.

(** [sort_values(..., ascending=False, kind='stable')] *)
Fixpoint stable_sort (d : list row) : list row :=
  match d with
  | [] => []
  | r :: d' => insert_row r (stable_sort d')
  end.

(** The stable algorithm run on the frame read backwards. pandas has no such
    kind: it is a second function with the properties of the interface,
    with equal keys in the opposite order, for the statements that hold
    whatever the algorithm is. *)
Definition antistable_sort (d : list row) : list row := stable_sort (rev d).

(** ** Integers as exact rationals *)

Definition Z2Qc (z : Z) : Qc := Q2Qc (inject_Z z).

(** The plotting position of rank [m] among [n_wet] wet days, and its
    reciprocal, as the notebook's markdown writes them. *)
Definition tau (n_wet m : Z) : Qc := Z2Qc (n_wet + 1) / Z2Qc m.

Definition p_event (n_wet m : Z) : Qc := Z2Qc m / Z2Qc (n_wet + 1).

(** [1 - (1 - p * p_wet) ^ 365] on exact rationals *)
Definition annualize (p p_wet : Qc) : Qc := 1 - (1 - p * p_wet) ^ 365.

(** Goals on [Qc] are moved to [Q], where [lra] and [nra] work. *)
Ltac to_Q :=
  unfold Qclt, Qcle, Qcdiv, Qcminus, Qcplus, Qcmult, Qcopp, Qcinv, Z2Qc, Q2Qc, this in *;
  repeat rewrite Qred_correct in *.

(** ** The other cells *)

(** [daily_mean[(daily_mean > 0.5)]] *)
Definition daily_mean_wet (daily_mean : list Qc) : list Qc :=
  filter (fun x => key_ltb (Z2Qc 1 / Z2Qc 2) x) daily_mean.

(** The cell "Estimating Return Period Using the Fitted Gamma Distribution",
    from the series [daily_mean] and the value [cdf] of the fitted
    distribution function at [event_threshold]. *)
Definition return_period_cell (daily_mean : list Qc) (cdf : float64) : outcome float64 :=
  let n_all := size daily_mean in
  let n_wet := size (daily_mean_wet daily_mean) in
  p_wet <- py_truediv n_wet n_all ;;
  let p_daily := subtract (of_int 1) cdf in
  Ok (return_period_model p_daily p_wet).

(** [precipitation = wetday * rainfall], entry by entry: [wetday] holds the
    draws of [np.random.binomial(1, 0.3, size)], [rainfall] those of
    [np.random.gamma(1, 5, size)]. *)
Definition synthetic_precipitation (wetday : list Z) (rainfall : list Qc) : list Qc :=
  map (fun '(w, x) => Z2Qc w * x) (combine wetday rainfall).

(** ** numpy's argsort kernel for at most eight keys *)

Module Kernel.

(** One 64-bit lane of the register: a row of the frame (the kernel moves
    the row's position along with its key), or the padding [+inf]. *)
Definition lane : Set := option row.

(** [x > y] on the keys of two lanes *)
Definition lane_gt (x y : lane) : bool :=
  match x, y with
  | Some r, Some s => key_ltb (precipitation s) (precipitation r)
  | None, Some _ => true
  | _, None => false
  end.

Fixpoint update {A : Type} (l : list A) (i : nat) (x : A) : list A :=
  match l, i with
  | [], _ => []
  | _ :: t, O => x :: t
  | h :: t, S i => h :: update t i x
  end.

Section Network.

Context {A : Type} (gt : A -> A -> bool).

(** Compare-exchange of lanes [i < j]: the smaller key goes to lane [i];
    lanes with equal keys stay as they are. *)
Definition cmp_merge (l : list A) (ij : nat * nat) : list A :=
  let (i, j) := ij in
  match nth_error l i, nth_error l j with
  | Some x, Some y => if gt x y then update (update l i y) j x else l
  | _, _ => l
  end.

Definition run (network : list (nat * nat)) (l : list A) : list A :=
  fold_left cmp_merge network l.

End Network.

(** The bitonic network [sort_zmm_64bit] over the eight lanes of a
    512-bit register. *)
Definition sort_zmm_64bit : list (nat * nat) :=
  [ (0, 1); (2, 3); (4, 5); (6, 7);
    (0, 3); (1, 2); (4, 7); (5, 6);
    (0, 1); (2, 3); (4, 5); (6, 7);
    (0, 7); (1, 6); (2, 5); (3, 4);
    (0, 2); (1, 3); (4, 6); (5, 7);
    (0, 1); (2, 3); (4, 5); (6, 7) ]%nat.

Definition rows_of (lanes : list lane) : list row :=
  flat_map (fun x => match x with Some r => [r] | None => [] end) lanes.

(** [argsort_8_64bit]: the [n <= 8] rows are loaded in lanes [0 .. n-1],
    the other lanes hold [+inf]; after the network lanes [0 .. n-1] are
    stored back. *)
Definition argsort_8_64bit (d : list row) : list row :=
  let lanes := map Some d ++ repeat None (8 - length d) in
  rows_of (firstn (length d) (run lane_gt sort_zmm_64bit lanes)).

End Kernel.

(** [sort_values(..., ascending=False)] with the default [kind='quicksort']
    as pandas and numpy run it on a processor with AVX-512: pandas reverses
    the column, sorts it in ascending order and reverses the result
    ([nargsort]); numpy sorts at most eight keys with the network above.
    Longer frames go through the kernel's merging networks and partitions,
    which are not modelled: the stable algorithm stands in for them. *)
Definition quicksort_sort (d : list row) : list row :=
  if (length d <=? 8)%nat then rev (Kernel.argsort_8_64bit (rev d))
  else stable_sort d.

(** ** The same cells in IEEE binary64 *)

(** The arithmetic of the cells as numpy evaluates it, on the kernel's
    binary64 numbers: every operation rounds to nearest, ties to even. The
    integers [n_days], [n_wet_days] and [rank] are taken from the run of
    [estimator], where they are exact. *)
Module Binary64.

Local Open Scope float_scope.

(** [float(z)] for an integer below [2^63] *)
Definition of_int (z : Z) : float := PrimFloat.of_uint63 (Uint63.of_Z z).

(** [m = m' * 2^z] with [m'] odd *)
Fixpoint odd_part (m : positive) (z : Z) : positive * Z :=
  match m with
  | xO m' => odd_part m' (z + 1)
  | _ => (m, z)
  end.

(** [x ** n] for an integer [n >= 1]: numpy calls the C library's [pow];
    its result is taken as the correctly rounded power, the exact
    [(m * 2^e)^n] rounded once. *)
Definition power (x : float) (n : positive) : float :=
  match Prim2SF x with
  | S754_finite s m e =>
      let (m', z) := odd_part m 0 in
      let sign := s && negb (Z.even (Z.pos n)) in
      SF2Prim (binary_normalize prec emax
                 (if sign then Z.neg (m' ^ n) else Z.pos (m' ^ n))
                 ((e + z) * Z.pos n) false)
  | S754_zero true => if Z.even (Z.pos n) then 0 else x
  | S754_infinity true => if Z.even (Z.pos n) then infinity else x
  | _ => x
  end.

(** [return_period = (n_wet_days + 1) / df_sorted['rank']] *)
Definition return_period (res : ranked) : list float :=
  map (fun m => of_int (n_wet_days res + 1) / of_int m) (rank res).

(** [probability = 1 / return_period] *)
Definition probability (res : ranked) : list float :=
  map (fun t => 1 / t) (return_period res).

(** [p_annual = 1 - (1 - p_daily*p_wet)**365] *)
Definition p_annual (p_daily p_wet : float) : float :=
  1 - power (1 - p_daily * p_wet) 365.

(** [return_period_model = 1/p_annual] *)
Definition return_period_model (p_daily p_wet : float) : float :=
  1 / p_annual p_daily p_wet.

End Binary64.

(** [x <= y] on two numbers; false when one is [nan]. *)
Definition less_equal (x y : float64) : bool :=
  match x, y with
  | NaN, _ | _, NaN => false
  | Fin a, Fin b => negb (key_ltb b a)
  | NInf, _ | _, PInf => true
  | _, _ => false
  end.

(** ** Statements under test *)

(** The series of the worked scenario: [amounts = [0, 5, 0, 20, 10]]. *)
Definition scenario : list Qc := map Z2Qc [0; 5; 0; 20; 10]%Z.

(** "The return period does not decrease as the rank increases." *)
Definition tau_nondecreasing_in_rank (res : ranked) : Prop :=
  forall i j m1 m2 t1 t2,
    nth_error (rank res) i = Some m1 ->
    nth_error (rank res) j = Some m2 ->
    nth_error (return_period res) i = Some (Fin t1) ->
    nth_error (return_period res) j = Some (Fin t2) ->
    (m1 < m2)%Z -> t1 <= t2.

(** "Among wet observations with equal amounts the one met earlier in the
    input (the smaller [day]) has the smaller rank." *)
Definition ties_in_input_order `{SortValues} (amounts : list Qc) : Prop :=
  forall res i j r s m1 m2,
    estimator amounts = Ok res ->
    nth_error (df_sorted res) i = Some r ->
    nth_error (df_sorted res) j = Some s ->
    nth_error (rank res) i = Some m1 ->
    nth_error (rank res) j = Some m2 ->
    precipitation r = precipitation s ->
    (day r < day s)%Z ->
    (m1 < m2)%Z.

(** "The input is invalid": no observation, no wet observation, or a
    negative amount. *)
Definition invalid_input (amounts : list Qc) : Prop :=
  amounts = [] \/ dfwet (df amounts) = [] \/ exists x, In x amounts /\ x < 0.

(** "The estimator fails exactly when the input is invalid." *)
Definition fails_exactly_on_invalid_input `{SortValues} (amounts : list Qc) : Prop :=
  (exists e, estimator amounts = Raise e) <-> invalid_input amounts.

(** No entry of the column is an infinity or [nan]. *)
Definition all_finite (col : list float64) : Prop :=
  Forall (fun x => isfinite x = true) col.

(** "The probability of rank [m] is [m / (N_wet + 1)] exactly", read on
    the numbers the cells compute: the entry is the double [m / (N_wet + 1)]. *)
Definition probability_is_the_plotting_position (res : ranked) : Prop :=
  forall i m p,
    nth_error (rank res) i = Some m ->
    nth_error (Binary64.probability res) i = Some p ->
    PrimFloat.eqb p (Binary64.of_int m / Binary64.of_int (n_wet_days res + 1)) = true.


(** A series with eight wet days. *)
Definition eight_wet_days : list Qc := map Z2Qc [3; 1; 4; 0; 5; 9; 2; 6; 8]%Z.

(** ** The two sorting functions meet the interface *)

Lemma key_ltb_lt x y : key_ltb x y = true <-> x < y.
Proof.
  unfold key_ltb. rewrite Qclt_alt. destruct (x ?= y); intuition congruence.
Qed.

Lemma key_ltb_ge x y : key_ltb x y = false <-> y <= x.
Proof.
  unfold key_ltb. rewrite Qcle_alt. unfold Qccompare.
  rewrite <- (Qcompare_antisym x y).
  destruct (x ?= y)%Q; simpl; intuition congruence.
Qed.

Lemma gt_zero_lt x : gt_zero x = true <-> 0 < x.
Proof. exact (key_ltb_lt 0 x). Qed.

Lemma insert_row_perm r l : Permutation (r :: l) (insert_row r l).
Proof.
  induction l as [|s l IH]; simpl; [reflexivity|].
  destruct (key_ltb _ _); [|reflexivity].
  rewrite perm_swap. now apply perm_skip.
Qed.

Lemma stable_sort_perm d : Permutation d (stable_sort d).
Proof.
  induction d as [|r d IH]; simpl; [constructor|].
  rewrite <- insert_row_perm. now apply perm_skip.
Qed.

Lemma descending_trans r s t : descending r s -> descending s t -> descending r t.
Proof. unfold descending. intros. now apply Qcle_trans with (precipitation s). Qed.

Lemma insert_row_sorted r l :
  StronglySorted descending l -> StronglySorted descending (insert_row r l).
Proof.
  induction 1 as [|s l Hl IH Hs]; simpl.
  - repeat constructor.
  - destruct (key_ltb (precipitation r) (precipitation s)) eqn:E.
    + constructor; [assumption|].
      rewrite <- insert_row_perm. constructor; [|assumption].
      apply key_ltb_lt in E. now apply Qclt_le_weak.
    + apply key_ltb_ge in E.
      constructor; [now constructor|].
      constructor; [assumption|].
      eapply Forall_impl; [|exact Hs].
      intros t Ht. now apply descending_trans with s.
Qed.

Lemma stable_sort_sorted d : StronglySorted descending (stable_sort d).
Proof.
  induction d; simpl; [constructor | now apply insert_row_sorted].
Qed.

Lemma antistable_sort_perm d : Permutation d (antistable_sort d).
Proof.
  unfold antistable_sort. rewrite <- stable_sort_perm. apply Permutation_rev.
Qed.

(** [kind='stable'] *)
#[export] Instance sort_values_stable : SortValues :=
  {| sort_values := stable_sort;
     sort_values_perm := stable_sort_perm;
     sort_values_sorted := stable_sort_sorted |}.

(** Not exported: used where a second admissible algorithm is needed. *)
Definition sort_values_antistable : SortValues :=
  {| sort_values := antistable_sort;
     sort_values_perm := antistable_sort_perm;
     sort_values_sorted := fun d => stable_sort_sorted (rev d) |}.

(** ** Arithmetic of the plotting position *)

Lemma Z2Qc_lt a b : (a < b)%Z -> Z2Qc a < Z2Qc b.
Proof. intros. to_Q. now rewrite <- Zlt_Qlt. Qed.

Lemma Z2Qc_le a b : (a <= b)%Z -> Z2Qc a <= Z2Qc b.
Proof. intros. to_Q. now rewrite <- Zle_Qle. Qed.

Lemma Z2Qc_pos a : (0 < a)%Z -> 0 < Z2Qc a.
Proof. exact (Z2Qc_lt 0 a). Qed.

Lemma Z2Qc_neq0 a : (0 < a)%Z -> Z2Qc a <> 0.
Proof. intros Ha E. apply Z2Qc_pos in Ha. rewrite E in Ha. now apply Qclt_not_eq in Ha. Qed.

Lemma compare_pos (q : Qc) : 0 < q -> (q ?= 0) = Gt.
Proof. intros. now apply Qcgt_alt. Qed.

Lemma true_divide_ints a m :
  (0 < m)%Z -> true_divide (of_int a) (of_int m) = Fin (Z2Qc a / Z2Qc m).
Proof.
  intros Hm. unfold true_divide, of_int. fold (Z2Qc m) (Z2Qc a).
  now rewrite (compare_pos _ (Z2Qc_pos m Hm)).
Qed.

Lemma tau_pos n m : (0 <= n)%Z -> (0 < m)%Z -> 0 < tau n m.
Proof.
  intros Hn Hm. unfold tau.
  assert (H1 : 0 < Z2Qc (n + 1)) by (apply Z2Qc_pos; lia).
  assert (H2 : 0 < Z2Qc m) by now apply Z2Qc_pos.
  revert H1 H2. generalize (Z2Qc (n + 1)) (Z2Qc m). intros [x Hx] [y Hy]. to_Q.
  intros. apply Qlt_shift_div_l; lra.
Qed.

Lemma recip_tau n m :
  (0 <= n)%Z -> (0 < m)%Z -> 1 / tau n m = p_event n m.
Proof.
  intros Hn Hm. unfold tau, p_event.
  field. split; apply Z2Qc_neq0; lia.
Qed.

Lemma true_divide_tau n m :
  (0 <= n)%Z -> (0 < m)%Z ->
  true_divide (of_int 1) (Fin (tau n m)) = Fin (p_event n m).
Proof.
  intros Hn Hm. unfold true_divide, of_int.
  rewrite (compare_pos _ (tau_pos n m Hn Hm)).
  f_equal. rewrite <- recip_tau by assumption. reflexivity.
Qed.

Lemma arange_length n : length (arange 1 (Z.of_nat n + 1)) = n.
Proof.
  unfold arange. rewrite length_map, length_seq. lia.
Qed.

Lemma nth_error_arange n i :
  nth_error (arange 1 (Z.of_nat n + 1)) i =
  if (i <? n)%nat then Some (Z.of_nat i + 1)%Z else None.
Proof.
  unfold arange. rewrite nth_error_map.
  replace (Z.to_nat (Z.of_nat n + 1 - 1)) with n by lia.
  rewrite nth_error_seq.
  destruct (i <? n)%nat; cbn [option_map]; [f_equal; lia | reflexivity].
Qed.

Lemma df_length amounts : length (df amounts) = length amounts.
Proof.
  unfold df. rewrite length_map, length_combine, arange_length. lia.
Qed.

Lemma map_precipitation_df amounts : map precipitation (df amounts) = amounts.
Proof.
  unfold df. rewrite map_map.
  generalize (arange 1 (Z.of_nat (length amounts) + 1)) (arange_length (length amounts)).
  induction amounts as [|x l IH]; intros [|d ds] E; simpl in *; try congruence.
  f_equal. apply IH. congruence.
Qed.

Lemma of_int_1 : of_int 1 = Fin 1.
Proof. reflexivity. Qed.

(** ** The run of the estimator *)

Lemma Ok_inj {A : Type} (a b : A) : Ok a = Ok b -> a = b.
Proof. intros E. now injection E. Qed.

Lemma py_truediv_sizes a b :
  (0 < b)%Z -> py_truediv a b = Ok (Fin (Z2Qc a / Z2Qc b)).
Proof.
  intros Hb. unfold py_truediv.
  destruct (Z.eqb_spec b 0); [lia | reflexivity].
Qed.

Lemma insert_same_length {A} frame (value : list A) :
  length value = length frame -> insert frame value = Ok value.
Proof. intros E. unfold insert. now rewrite E, Nat.eqb_refl. Qed.

Section EstimatorFacts.

Context `{SortValues}.

Lemma sort_values_length d : length (sort_values d) = length d.
Proof. symmetry. apply Permutation_length, sort_values_perm. Qed.

Lemma estimator_nil : estimator [] = Raise ZeroDivisionError.
Proof. reflexivity. Qed.

(** The run on a series that is not empty, with every expression as the
    notebook writes it. *)
Lemma estimator_run amounts :
  amounts <> [] ->
  let n := size (df amounts) in
  let n_wet := size (dfwet (df amounts)) in
  let rk := arange 1 (n_wet + 1) in
  let rp := map (fun m => true_divide (of_int (n_wet + 1)) (of_int m)) rk in
  let pr := map (fun t => true_divide (of_int 1) t) rp in
  let pw := Fin (Z2Qc n_wet / Z2Qc n) in
  estimator amounts =
  Ok {| n_days := n;
        n_wet_days := n_wet;
        p_wetdays := pw;
        df_sorted := sort_values (dfwet (df amounts));
        rank := rk;
        return_period := rp;
        probability := pr;
        probability_annual_exceedance :=
          map (fun p => subtract (of_int 1)
                          (power (subtract (of_int 1) (multiply p pw)) 365)) pr |}.
Proof.
  intros Hne n n_wet rk rp pr pw. unfold estimator.
  fold n n_wet. rewrite py_truediv_sizes.
  2:{ unfold n, size. rewrite df_length. destruct amounts; [congruence | simpl; lia]. }
  cbn [bind]. fold rk.
  assert (Hrk : length rk = length (sort_values (dfwet (df amounts)))).
  { unfold rk, n_wet, size. now rewrite arange_length, sort_values_length. }
  rewrite insert_same_length by assumption. cbn [bind]. fold rp.
  rewrite insert_same_length by (unfold rp; now rewrite length_map).
  cbn [bind]. fold pr.
  rewrite insert_same_length by (unfold pr, rp; now rewrite !length_map).
  reflexivity.
Qed.

Lemma estimator_inv amounts res :
  estimator amounts = Ok res ->
  amounts <> [] /\
  n_days res = size amounts /\
  n_wet_days res = size (dfwet (df amounts)) /\
  p_wetdays res = Fin (Z2Qc (n_wet_days res) / Z2Qc (n_days res)) /\
  df_sorted res = sort_values (dfwet (df amounts)) /\
  rank res = arange 1 (n_wet_days res + 1) /\
  return_period res =
    map (fun m => true_divide (of_int (n_wet_days res + 1)) (of_int m)) (rank res) /\
  probability res = map (fun t => true_divide (of_int 1) t) (return_period res) /\
  probability_annual_exceedance res =
    map (fun p => subtract (of_int 1)
                    (power (subtract (of_int 1) (multiply p (p_wetdays res))) 365))
        (probability res).
Proof.
  intros E. destruct amounts as [|x l].
  - rewrite estimator_nil in E. discriminate.
  - rewrite estimator_run in E by discriminate.
    apply Ok_inj in E. subst res.
    cbn [n_days n_wet_days p_wetdays df_sorted rank return_period
           probability probability_annual_exceedance].
    repeat split; try reflexivity; try discriminate.
    unfold size. now rewrite df_length.
Qed.

Lemma n_wet_days_bounds amounts res :
  estimator amounts = Ok res ->
  (0 <= n_wet_days res <= n_days res)%Z /\ (1 <= n_days res)%Z.
Proof.
  intros E. destruct (estimator_inv _ _ E) as (Hne & Hn & Hw & _).
  rewrite Hn, Hw. unfold size, dfwet.
  pose proof (filter_length_le (fun r => gt_zero (precipitation r)) (df amounts)) as Hle.
  rewrite df_length in Hle.
  destruct amounts; [congruence | simpl length in *; lia].
Qed.

Lemma rank_entry amounts res i m :
  estimator amounts = Ok res ->
  nth_error (rank res) i = Some m ->
  m = (Z.of_nat i + 1)%Z /\ (1 <= m <= n_wet_days res)%Z.
Proof.
  intros E Hi. destruct (estimator_inv _ _ E) as (_ & _ & Hw & _ & _ & Hr & _).
  rewrite Hr, Hw in Hi. unfold size in Hi. rewrite nth_error_arange in Hi.
  destruct (Nat.ltb_spec i (length (dfwet (df amounts)))); [|discriminate].
  injection Hi as <-. rewrite Hw. unfold size. lia.
Qed.

Lemma rank_of_position amounts res i :
  estimator amounts = Ok res ->
  (Z.of_nat i < n_wet_days res)%Z ->
  nth_error (rank res) i = Some (Z.of_nat i + 1)%Z.
Proof.
  intros E Hi. destruct (estimator_inv _ _ E) as (_ & _ & Hw & _ & _ & Hr & _).
  rewrite Hr, Hw. unfold size. rewrite nth_error_arange.
  rewrite Hw in Hi. unfold size in Hi.
  destruct (Nat.ltb_spec i (length (dfwet (df amounts)))); [reflexivity | lia].
Qed.

Lemma return_period_entry amounts res i m :
  estimator amounts = Ok res ->
  nth_error (rank res) i = Some m ->
  nth_error (return_period res) i = Some (Fin (tau (n_wet_days res) m)).
Proof.
  intros E Hi. destruct (rank_entry _ _ _ _ E Hi) as [_ Hm].
  destruct (estimator_inv _ _ E) as (_ & _ & _ & _ & _ & _ & Hrp & _).
  rewrite Hrp, nth_error_map, Hi. cbn [option_map].
  rewrite true_divide_ints by lia. reflexivity.
Qed.

Lemma probability_entry amounts res i m :
  estimator amounts = Ok res ->
  nth_error (rank res) i = Some m ->
  nth_error (probability res) i = Some (Fin (p_event (n_wet_days res) m)).
Proof.
  intros E Hi. destruct (rank_entry _ _ _ _ E Hi) as [_ Hm].
  destruct (estimator_inv _ _ E) as (_ & _ & _ & _ & _ & _ & _ & Hp & _).
  rewrite Hp, nth_error_map, (return_period_entry _ _ _ _ E Hi). cbn [option_map].
  rewrite true_divide_tau by lia. reflexivity.
Qed.

Lemma annual_entry amounts res i m :
  estimator amounts = Ok res ->
  nth_error (rank res) i = Some m ->
  nth_error (probability_annual_exceedance res) i =
  Some (Fin (annualize (p_event (n_wet_days res) m)
               (Z2Qc (n_wet_days res) / Z2Qc (n_days res)))).
Proof.
  intros E Hi.
  destruct (estimator_inv _ _ E) as (_ & _ & _ & Hpw & _ & _ & _ & _ & Ha).
  rewrite Ha, nth_error_map, (probability_entry _ _ _ _ E Hi), Hpw. cbn [option_map].
  rewrite of_int_1. reflexivity.
Qed.

End EstimatorFacts.


(** ** Bounds in exact arithmetic *)

Lemma fraction_le a b c d :
  (0 < b)%Z -> (0 < d)%Z -> (a * d <= c * b)%Z -> Z2Qc a / Z2Qc b <= Z2Qc c / Z2Qc d.
Proof.
  intros Hb Hd Hle. to_Q.
  destruct b as [|b|b]; try lia. destruct d as [|d|d]; try lia.
  change (inject_Z a * / inject_Z (Z.pos b) <= inject_Z c * / inject_Z (Z.pos d))%Q.
  fold (Qdiv (inject_Z a) (inject_Z (Z.pos b))) (Qdiv (inject_Z c) (inject_Z (Z.pos d))).
  rewrite <- !Qmake_Qdiv. unfold Qle. simpl. assumption.
Qed.

Lemma fraction_lt a b c d :
  (0 < b)%Z -> (0 < d)%Z -> (a * d < c * b)%Z -> Z2Qc a / Z2Qc b < Z2Qc c / Z2Qc d.
Proof.
  intros Hb Hd Hlt. to_Q.
  destruct b as [|b|b]; try lia. destruct d as [|d|d]; try lia.
  change (inject_Z a * / inject_Z (Z.pos b) < inject_Z c * / inject_Z (Z.pos d))%Q.
  fold (Qdiv (inject_Z a) (inject_Z (Z.pos b))) (Qdiv (inject_Z c) (inject_Z (Z.pos d))).
  rewrite <- !Qmake_Qdiv. unfold Qlt. simpl. assumption.
Qed.

Lemma Z2Qc_over_1 a : Z2Qc a / Z2Qc 1 = Z2Qc a.
Proof. change (Z2Qc 1) with 1. field. discriminate. Qed.

Lemma product_in_unit_interval (x y : Qc) :
  0 < x -> x < 1 -> 0 < y -> y <= 1 -> 0 < x * y /\ x * y < 1.
Proof.
  destruct x as [x Hx], y as [y Hy]. to_Q. intros. split; nra.
Qed.

Lemma power_in_unit_interval (x : Qc) (n : nat) :
  0 < x -> x < 1 -> 0 < x ^ S n /\ x ^ S n < 1.
Proof.
  intros H0 H1. induction n as [|n [IH0 IH1]].
  - simpl. rewrite Qcmult_1_r. now split.
  - change (x ^ S (S n)) with (x * x ^ S n).
    revert IH0 IH1. generalize (x ^ S n). intros y.
    destruct x as [x Hx], y as [y Hy]. to_Q. intros. split; nra.
Qed.

Lemma one_minus_power_in_unit_interval (x : Qc) :
  0 < x -> x < 1 -> 0 < 1 - (1 - x) ^ 365 /\ 1 - (1 - x) ^ 365 < 1.
Proof.
  intros Hx0 Hx1.
  assert (H0 : 0 < 1 - x).
  { revert Hx1. destruct x as [x Hx]. to_Q. intros. lra. }
  assert (H1 : 1 - x < 1).
  { revert Hx0. destruct x as [x Hx]. to_Q. intros. lra. }
  destruct (power_in_unit_interval _ 364 H0 H1) as [Hy0 Hy1].
  revert Hy0 Hy1. generalize ((1 - x) ^ 365). intros [y Hy]. to_Q. intros. split; lra.
Qed.

Lemma annualize_in_unit_interval (p pw : Qc) :
  0 < p -> p < 1 -> 0 < pw -> pw <= 1 ->
  0 < annualize p pw /\ annualize p pw < 1.
Proof.
  intros Hp0 Hp1 Hw0 Hw1.
  destruct (product_in_unit_interval p pw Hp0 Hp1 Hw0 Hw1) as [Hx0 Hx1].
  now apply one_minus_power_in_unit_interval.
Qed.

Lemma dfwet_count amounts :
  length (dfwet (df amounts)) = length (filter gt_zero amounts).
Proof.
  rewrite <- (map_precipitation_df amounts) at 2.
  unfold dfwet. rewrite filter_map_swap, length_map. reflexivity.
Qed.

Lemma fraction_pos a b : (0 < a)%Z -> (0 < b)%Z -> 0 < Z2Qc a / Z2Qc b.
Proof.
  intros Ha Hb. pose proof (fraction_lt 0 1 a b) as L.
  rewrite Z2Qc_over_1 in L. apply L; lia.
Qed.

Lemma fraction_lt_1 a b : (0 < b)%Z -> (a < b)%Z -> Z2Qc a / Z2Qc b < 1.
Proof.
  intros Hb Ha. pose proof (fraction_lt a b 1 1) as L.
  rewrite Z2Qc_over_1 in L. apply L; lia.
Qed.

Lemma fraction_le_1 a b : (0 < b)%Z -> (a <= b)%Z -> Z2Qc a / Z2Qc b <= 1.
Proof.
  intros Hb Ha. pose proof (fraction_le a b 1 1) as L.
  rewrite Z2Qc_over_1 in L. apply L; lia.
Qed.

Lemma fraction_gt_1 a b : (0 < b)%Z -> (b < a)%Z -> 1 < Z2Qc a / Z2Qc b.
Proof.
  intros Hb Ha. pose proof (fraction_lt 1 1 a b) as L.
  rewrite Z2Qc_over_1 in L. apply L; lia.
Qed.

Lemma p_event_bounds n m :
  (1 <= m <= n)%Z ->
  0 < p_event n m /\ p_event n m <= Z2Qc n / Z2Qc (n + 1) /\ Z2Qc n / Z2Qc (n + 1) < 1.
Proof.
  intros Hm. unfold p_event. repeat split.
  - apply fraction_pos; lia.
  - apply fraction_le; nia.
  - apply fraction_lt_1; lia.
Qed.

Lemma tau_bounds n m :
  (1 <= m <= n)%Z ->
  Z2Qc (n + 1) / Z2Qc n <= tau n m /\ 1 < Z2Qc (n + 1) / Z2Qc n.
Proof.
  intros Hm. unfold tau. split.
  - apply fraction_le; nia.
  - apply fraction_gt_1; lia.
Qed.

Lemma tau_decreasing n m1 m2 :
  (0 <= n)%Z -> (1 <= m1 < m2)%Z -> tau n m2 < tau n m1.
Proof. intros Hn Hm. unfold tau. apply fraction_lt; nia. Qed.

Lemma p_wet_bounds n_wet n :
  (1 <= n_wet <= n)%Z -> 0 < Z2Qc n_wet / Z2Qc n /\ Z2Qc n_wet / Z2Qc n <= 1.
Proof.
  intros Hn. split; [apply fraction_pos | apply fraction_le_1]; lia.
Qed.

Section Columns.
Context `{SortValues}.

Lemma columns_length amounts res :
  estimator amounts = Ok res ->
  length (rank res) = Z.to_nat (n_wet_days res) /\
  length (df_sorted res) = Z.to_nat (n_wet_days res) /\
  length (return_period res) = Z.to_nat (n_wet_days res) /\
  length (probability res) = Z.to_nat (n_wet_days res) /\
  length (probability_annual_exceedance res) = Z.to_nat (n_wet_days res).
Proof.
  intros E.
  destruct (estimator_inv _ _ E) as (_ & _ & Hw & _ & Hs & Hr & Hrp & Hp & Ha).
  assert (Hrk : length (rank res) = Z.to_nat (n_wet_days res)).
  { rewrite Hr, Hw. unfold size. rewrite arange_length. lia. }
  rewrite Ha, Hp, Hrp, !length_map, Hs, sort_values_length.
  repeat split; try assumption. rewrite Hw. unfold size. lia.
Qed.

Lemma rank_defined amounts res i :
  estimator amounts = Ok res ->
  (i < Z.to_nat (n_wet_days res))%nat ->
  exists m, nth_error (rank res) i = Some m.
Proof.
  intros E Hi. eexists. apply (rank_of_position _ _ _ E). lia.
Qed.

End Columns.

(** ** Sorted frames *)

Lemma StronglySorted_nth_error {A} (R : A -> A -> Prop) (l : list A) i j a b :
  StronglySorted R l ->
  (i < j)%nat ->
  nth_error l i = Some a ->
  nth_error l j = Some b ->
  R a b.
Proof.
  intros Hs. revert i j. induction Hs as [|x l Hs IH Hx]; intros i j Hij Ha Hb.
  - destruct i; discriminate.
  - destruct j as [|j]; [lia|]. cbn in Hb. destruct i as [|i]; cbn in Ha.
    + injection Ha as <-. rewrite Forall_forall in Hx.
      eapply Hx, nth_error_In, Hb.
    + apply (IH i j); [lia | assumption | assumption].
Qed.

(** With pairwise distinct keys the interface leaves one result only. *)
Lemma descending_sort_unique (l1 l2 : list row) :
  StronglySorted descending l1 ->
  StronglySorted descending l2 ->
  Permutation l1 l2 ->
  NoDup (map precipitation l1) ->
  l1 = l2.
Proof.
  intros S1. revert l2. induction S1 as [|x l1 S1 IH Hx]; intros l2 S2 P ND.
  - apply Permutation_nil in P. now subst.
  - destruct l2 as [|y l2]; [apply Permutation_sym, Permutation_nil in P; discriminate|].
    inversion S2 as [|y' l2' S2' Hy]; subst.
    inversion ND as [|k ks Hnotin ND']; subst.
    assert (Exy : x = y).
    { assert (Hin1 : In x (y :: l2)) by (eapply Permutation_in; [exact P | now left]).
      assert (Hin2 : In y (x :: l1))
        by (eapply Permutation_in; [apply Permutation_sym; exact P | now left]).
      destruct Hin1 as [->|Hin1]; [reflexivity|].
      destruct Hin2 as [->|Hin2]; [reflexivity|].
      exfalso. apply Hnotin.
      rewrite Forall_forall in Hx, Hy.
      pose proof (Hx _ Hin2) as Hle1. pose proof (Hy _ Hin1) as Hle2.
      unfold descending in Hle1, Hle2.
      rewrite (Qcle_antisym _ _ Hle2 Hle1). now apply in_map. }
    subst y. f_equal. apply IH; [assumption | | assumption].
    now apply Permutation_cons_inv in P.
Qed.

Ltac qc_neq E := apply (f_equal this) in E; vm_compute in E; discriminate E.

(** ** The annualization formula *)

Lemma power_Fin (a : Qc) (n : nat) : power (Fin a) (S n) = Fin (a ^ S n).
Proof. reflexivity. Qed.

Lemma p_annual_Fin (p_daily p_wet : Qc) :
  p_annual (Fin p_daily) (Fin p_wet) = Fin (annualize p_daily p_wet).
Proof.
  unfold p_annual, annualize. rewrite of_int_1.
  change (multiply (Fin p_daily) (Fin p_wet)) with (Fin (p_daily * p_wet)).
  change (subtract (Fin 1) (Fin (p_daily * p_wet))) with (Fin (1 - p_daily * p_wet)).
  rewrite power_Fin. reflexivity.
Qed.

Lemma reciprocal_pos (a : Qc) : 0 < a -> 0 < 1 / a.
Proof.
  destruct a as [a Ha]. to_Q. intros H. rewrite Qmult_1_l. now apply Qinv_lt_0_compat.
Qed.

(** ** The kernel sorts *)

Lemma update_length {A} (l : list A) i x : length (Kernel.update l i x) = length l.
Proof. revert i. induction l; intros [|i]; cbn; auto. Qed.

Lemma update_same {A} (l : list A) i x :
  nth_error l i = Some x -> Kernel.update l i x = l.
Proof.
  revert i. induction l as [|h t IH]; intros [|i] E; cbn in *; try discriminate.
  - congruence.
  - f_equal. now apply IH.
Qed.

Lemma map_update {A B} (f : A -> B) (l : list A) i x :
  map f (Kernel.update l i x) = Kernel.update (map f l) i (f x).
Proof. revert i. induction l; intros [|i]; cbn; auto. f_equal. auto. Qed.

Lemma update_perm_head {A} (t : list A) j x y :
  nth_error t j = Some y -> Permutation (x :: t) (y :: Kernel.update t j x).
Proof.
  revert j. induction t as [|h t IH]; intros [|j] E; cbn in *; try discriminate.
  - injection E as ->. apply perm_swap.
  - rewrite perm_swap. rewrite (IH j E). apply perm_swap.
Qed.

Lemma update_swap_perm {A} (l : list A) i j x y :
  (i < j)%nat ->
  nth_error l i = Some x ->
  nth_error l j = Some y ->
  Permutation l (Kernel.update (Kernel.update l i y) j x).
Proof.
  revert i j. induction l as [|h t IH]; intros [|i] [|j] Hij Hx Hy;
    cbn in *; try discriminate; try lia.
  - injection Hx as ->. now apply update_perm_head.
  - apply perm_skip. apply IH; [lia | assumption | assumption].
Qed.

Lemma cmp_merge_perm {A} (gt : A -> A -> bool) (l : list A) i j :
  (i < j)%nat -> Permutation l (Kernel.cmp_merge gt l (i, j)).
Proof.
  intros Hij. unfold Kernel.cmp_merge.
  destruct (nth_error l i) as [x|] eqn:Hx; [|reflexivity].
  destruct (nth_error l j) as [y|] eqn:Hy; [|reflexivity].
  destruct (gt x y); [|reflexivity].
  now apply update_swap_perm.
Qed.

Lemma cmp_merge_length {A} (gt : A -> A -> bool) (l : list A) ij :
  length (Kernel.cmp_merge gt l ij) = length l.
Proof.
  destruct ij as [i j]. unfold Kernel.cmp_merge.
  destruct (nth_error l i); [|reflexivity].
  destruct (nth_error l j); [|reflexivity].
  destruct (gt _ _); [|reflexivity].
  now rewrite !update_length.
Qed.

Lemma run_perm {A} (gt : A -> A -> bool) (network : list (nat * nat)) (l : list A) :
  Forall (fun ij => (fst ij < snd ij)%nat) network ->
  Permutation l (Kernel.run gt network l).
Proof.
  unfold Kernel.run. intros Hn. revert l.
  induction Hn as [|[i j] network Hij _ IH]; intros l; cbn [fold_left]; [reflexivity|].
  rewrite <- IH. now apply cmp_merge_perm.
Qed.

Lemma run_length {A} (gt : A -> A -> bool) (network : list (nat * nat)) (l : list A) :
  length (Kernel.run gt network l) = length l.
Proof.
  unfold Kernel.run. revert l. induction network as [|ij network IH]; intros l;
    cbn [fold_left]; [reflexivity|].
  now rewrite IH, cmp_merge_length.
Qed.

(** *** The zero-one principle *)

(** [true > false] *)
Definition bool_gt (a b : bool) : bool := a && negb b.

Section ZeroOne.

Context {A : Type} (gt : A -> A -> bool) (f : A -> bool).

Hypothesis f_mono_le : forall x y, gt x y = false -> f x = true -> f y = true.
Hypothesis f_mono_gt : forall x y, gt x y = true -> f y = true -> f x = true.

Lemma cmp_merge_map (l : list A) ij :
  map f (Kernel.cmp_merge gt l ij) = Kernel.cmp_merge bool_gt (map f l) ij.
Proof.
  destruct ij as [i j]. unfold Kernel.cmp_merge. rewrite !nth_error_map.
  destruct (nth_error l i) as [x|] eqn:Hx; cbn [option_map]; [|reflexivity].
  destruct (nth_error l j) as [y|] eqn:Hy; cbn [option_map]; [|reflexivity].
  destruct (gt x y) eqn:G.
  - rewrite !map_update. unfold bool_gt.
    destruct (f x) eqn:Fx, (f y) eqn:Fy; cbn [andb negb]; try reflexivity.
    + rewrite (update_same (map f l) i true)
        by (now rewrite nth_error_map, Hx; cbn; rewrite Fx).
      apply update_same. now rewrite nth_error_map, Hy; cbn; rewrite Fy.
    + rewrite (f_mono_gt _ _ G Fy) in Fx. discriminate.
    + rewrite (update_same (map f l) i false)
        by (now rewrite nth_error_map, Hx; cbn; rewrite Fx).
      apply update_same. now rewrite nth_error_map, Hy; cbn; rewrite Fy.
  - unfold bool_gt.
    destruct (f x) eqn:Fx, (f y) eqn:Fy; cbn [andb negb]; try reflexivity.
    rewrite (f_mono_le _ _ G Fx) in Fy. discriminate.
Qed.

Lemma run_map (network : list (nat * nat)) (l : list A) :
  map f (Kernel.run gt network l) = Kernel.run bool_gt network (map f l).
Proof.
  unfold Kernel.run. revert l. induction network as [|ij network IH]; intros l;
    cbn [fold_left]; [reflexivity|].
  now rewrite IH, cmp_merge_map.
Qed.

End ZeroOne.

(** No [true] directly before a [false]. *)
Fixpoint sorted01 (l : list bool) : bool :=
  match l with
  | a :: (b :: _) as t => negb (bool_gt a b) && sorted01 t
  | _ => true
  end.

Lemma sorted01_adjacent (l : list bool) k :
  sorted01 l = true ->
  nth_error l k = Some true ->
  nth_error l (S k) = Some false ->
  False.
Proof.
  revert k. induction l as [|a [|b t] IH]; intros k Hs Ha Hb.
  - destruct k; discriminate.
  - destruct k as [|k]; cbn in Hb; [discriminate | destruct k; discriminate].
  - cbn [sorted01] in Hs. apply andb_prop in Hs as [Hab Hs].
    destruct k as [|k].
    + cbn in Ha, Hb. injection Ha as ->. injection Hb as ->. discriminate.
    + apply (IH k); assumption.
Qed.

Lemma sort_zmm_64bit_sorts01 (l : list bool) :
  length l = 8%nat -> sorted01 (Kernel.run bool_gt Kernel.sort_zmm_64bit l) = true.
Proof.
  intros E.
  do 9 (destruct l as [|? l]; try discriminate E).
  repeat match goal with b : bool |- _ => destruct b end; reflexivity.
Qed.

(** *** The order of the lanes *)

Definition lane_le (x y : Kernel.lane) : Prop := Kernel.lane_gt x y = false.

Lemma lane_gt_irrefl x : Kernel.lane_gt x x = false.
Proof.
  destruct x as [r|]; cbn; [|reflexivity]. apply key_ltb_ge, Qcle_refl.
Qed.

Lemma lane_le_trans x y z : lane_le x y -> lane_le y z -> lane_le x z.
Proof.
  unfold lane_le. destruct x as [r|], y as [s|], z as [t|]; cbn; try congruence.
  rewrite !key_ltb_ge. intros H1 H2. now apply Qcle_trans with (precipitation s).
Qed.

Lemma lane_gt_le x y : Kernel.lane_gt x y = true -> lane_le y x.
Proof.
  unfold lane_le. destruct x as [r|], y as [s|]; cbn; try congruence.
  rewrite key_ltb_lt, key_ltb_ge. apply Qclt_le_weak.
Qed.

Lemma sort_zmm_64bit_adjacent (lanes : list Kernel.lane) k x y :
  length lanes = 8%nat ->
  nth_error (Kernel.run Kernel.lane_gt Kernel.sort_zmm_64bit lanes) k = Some x ->
  nth_error (Kernel.run Kernel.lane_gt Kernel.sort_zmm_64bit lanes) (S k) = Some y ->
  lane_le x y.
Proof.
  intros L Hx Hy. unfold lane_le.
  destruct (Kernel.lane_gt x y) eqn:G; [exfalso | reflexivity].
  set (f := fun z => negb (Kernel.lane_gt x z)).
  assert (Hmap : map f (Kernel.run Kernel.lane_gt Kernel.sort_zmm_64bit lanes) =
                 Kernel.run bool_gt Kernel.sort_zmm_64bit (map f lanes)).
  { apply run_map; unfold f; intros a b Hab Hf; apply negb_true_iff in Hf;
      apply negb_true_iff.
    - exact (lane_le_trans x a b Hf Hab).
    - exact (lane_le_trans x b a Hf (lane_gt_le _ _ Hab)). }
  apply (sorted01_adjacent
           (map f (Kernel.run Kernel.lane_gt Kernel.sort_zmm_64bit lanes)) k).
  - rewrite Hmap. apply sort_zmm_64bit_sorts01. now rewrite length_map.
  - rewrite nth_error_map, Hx. cbn. unfold f. now rewrite lane_gt_irrefl.
  - rewrite nth_error_map, Hy. cbn. unfold f. now rewrite G.
Qed.

Lemma adjacent_StronglySorted {A} (R : A -> A -> Prop) (l : list A) :
  (forall x y z, R x y -> R y z -> R x z) ->
  (forall k x y, nth_error l k = Some x -> nth_error l (S k) = Some y -> R x y) ->
  StronglySorted R l.
Proof.
  intros Htrans Hadj. apply Sorted_StronglySorted; [exact Htrans|].
  induction l as [|a l IH]; [constructor|].
  constructor.
  - apply IH. intros k x y Hx Hy. apply (Hadj (S k)); assumption.
  - destruct l as [|b l]; constructor. apply (Hadj 0%nat); reflexivity.
Qed.

Lemma sort_zmm_64bit_sorted (lanes : list Kernel.lane) :
  length lanes = 8%nat ->
  StronglySorted lane_le (Kernel.run Kernel.lane_gt Kernel.sort_zmm_64bit lanes).
Proof.
  intros L. apply adjacent_StronglySorted.
  - exact lane_le_trans.
  - intros k x y. now apply sort_zmm_64bit_adjacent.
Qed.

(** *** From the lanes back to the rows *)

Lemma rows_of_Some d : Kernel.rows_of (map Some d) = d.
Proof.
  unfold Kernel.rows_of. induction d as [|r d IH]; cbn; [reflexivity | now f_equal].
Qed.

Lemma rows_of_pad k : Kernel.rows_of (repeat None k) = [].
Proof. induction k; cbn; auto. Qed.

Lemma rows_of_app l1 l2 :
  Kernel.rows_of (l1 ++ l2) = Kernel.rows_of l1 ++ Kernel.rows_of l2.
Proof. apply flat_map_app. Qed.

Lemma rows_of_cons_Some r lanes :
  Kernel.rows_of (Some r :: lanes) = r :: Kernel.rows_of lanes.
Proof. reflexivity. Qed.

Lemma rows_of_cons_None lanes : Kernel.rows_of (None :: lanes) = Kernel.rows_of lanes.
Proof. reflexivity. Qed.

(** In sorted lanes the padding comes last. *)
Lemma rows_of_firstn (lanes : list Kernel.lane) :
  StronglySorted lane_le lanes ->
  Kernel.rows_of (firstn (length (Kernel.rows_of lanes)) lanes) = Kernel.rows_of lanes.
Proof.
  induction 1 as [|x lanes Hs IH Hx]; [reflexivity|].
  destruct x as [r|].
  - rewrite rows_of_cons_Some. cbn [length firstn].
    now rewrite rows_of_cons_Some, IH.
  - assert (Hpad : Kernel.rows_of lanes = []).
    { clear IH Hs. induction lanes as [|y lanes IH]; [reflexivity|].
      inversion Hx as [|? ? Hy Hrest]; subst.
      destruct y as [s|]; [discriminate Hy|].
      rewrite rows_of_cons_None. now apply IH. }
    rewrite rows_of_cons_None, Hpad. reflexivity.
Qed.

Lemma rows_of_sorted (lanes : list Kernel.lane) :
  StronglySorted lane_le lanes ->
  StronglySorted (fun r s => precipitation r <= precipitation s) (Kernel.rows_of lanes).
Proof.
  induction 1 as [|x lanes Hs IH Hx]; [constructor|].
  destruct x as [r|]; [rewrite rows_of_cons_Some | now rewrite rows_of_cons_None].
  constructor; [assumption|].
  apply Forall_forall. intros s Hin.
  unfold Kernel.rows_of in Hin. apply in_flat_map in Hin as (y & Hy & Hin).
  rewrite Forall_forall in Hx. specialize (Hx y Hy).
  destruct y as [s'|]; [|destruct Hin].
  destruct Hin as [->|[]]. now apply key_ltb_ge in Hx.
Qed.

Section Argsort.

Variable d : list row.
Hypothesis d_short : (length d <= 8)%nat.

Let lanes : list Kernel.lane := map Some d ++ repeat None (8 - length d).
Let out : list Kernel.lane := Kernel.run Kernel.lane_gt Kernel.sort_zmm_64bit lanes.

Lemma lanes_length : length lanes = 8%nat.
Proof. unfold lanes. rewrite length_app, length_map, repeat_length. lia. Qed.

Lemma out_perm : Permutation d (Kernel.rows_of out).
Proof.
  assert (P : Permutation lanes out).
  { apply run_perm. unfold Kernel.sort_zmm_64bit. repeat constructor. }
  unfold Kernel.rows_of at 1. rewrite <- (Permutation_flat_map _ P).
  fold (Kernel.rows_of lanes). unfold lanes.
  now rewrite rows_of_app, rows_of_Some, rows_of_pad, app_nil_r.
Qed.

Lemma argsort_8_64bit_eq : Kernel.argsort_8_64bit d = Kernel.rows_of out.
Proof.
  unfold Kernel.argsort_8_64bit. fold lanes. fold out.
  rewrite (Permutation_length out_perm).
  apply rows_of_firstn, sort_zmm_64bit_sorted, lanes_length.
Qed.

Lemma argsort_8_64bit_perm : Permutation d (Kernel.argsort_8_64bit d).
Proof. rewrite argsort_8_64bit_eq. exact out_perm. Qed.

Lemma argsort_8_64bit_sorted :
  StronglySorted (fun r s => precipitation r <= precipitation s)
                 (Kernel.argsort_8_64bit d).
Proof.
  rewrite argsort_8_64bit_eq. apply rows_of_sorted, sort_zmm_64bit_sorted, lanes_length.
Qed.

End Argsort.

Lemma StronglySorted_snoc {A} (R : A -> A -> Prop) (l : list A) (x : A) :
  StronglySorted R l -> Forall (fun a => R a x) l -> StronglySorted R (l ++ [x]).
Proof.
  induction 1 as [|a l Hs IH Ha]; intros Hx; cbn.
  - repeat constructor.
  - inversion Hx as [|? ? Hax Hlx]; subst.
    constructor; [now apply IH|].
    apply Forall_app. split; [assumption | now constructor].
Qed.

Lemma StronglySorted_rev {A} (R : A -> A -> Prop) (l : list A) :
  StronglySorted R l -> StronglySorted (fun a b => R b a) (rev l).
Proof.
  induction 1 as [|a l Hs IH Ha]; cbn; [constructor|].
  apply StronglySorted_snoc; [assumption|].
  apply Forall_rev. exact Ha.
Qed.

Lemma quicksort_sort_perm d : Permutation d (quicksort_sort d).
Proof.
  unfold quicksort_sort. destruct (Nat.leb_spec (length d) 8); [|apply stable_sort_perm].
  rewrite <- Permutation_rev.
  rewrite <- argsort_8_64bit_perm by (rewrite length_rev; assumption).
  apply Permutation_rev.
Qed.

Lemma quicksort_sort_sorted d : StronglySorted descending (quicksort_sort d).
Proof.
  unfold quicksort_sort. destruct (Nat.leb_spec (length d) 8); [|apply stable_sort_sorted].
  apply (StronglySorted_rev (fun r s => precipitation r <= precipitation s)).
  apply argsort_8_64bit_sorted. now rewrite length_rev.
Qed.

(** [kind='quicksort'], the default, on frames of at most eight rows *)
(** The default [kind='quicksort'] *)
Definition sort_values_quicksort : SortValues :=
  {| sort_values := quicksort_sort;
     sort_values_perm := quicksort_sort_perm;
     sort_values_sorted := quicksort_sort_sorted |}.


Lemma less_equal_Fin a b : a <= b -> less_equal (Fin a) (Fin b) = true.
Proof. intros H. cbn. apply negb_true_iff. now apply key_ltb_ge. Qed.

(** ** The properties of the specification *)

(** C1. For a wet subset of size [N_wet >= 1], the record of rank [m]
    ([1 <= m <= N_wet], and every such rank is given) receives the return
    period [(N_wet + 1) / m]; the record of rank 1 receives [N_wet + 1] and
    the record of rank [N_wet] receives [(N_wet + 1) / N_wet]. *)
Theorem C1_return_period_of_rank `{SortValues} (amounts : list Qc) (res : ranked) :
  estimator amounts = Ok res ->
  (1 <= n_wet_days res)%Z ->
  n_wet_days res = size (dfwet (df amounts)) /\
  (forall i m, nth_error (rank res) i = Some m ->
     (1 <= m <= n_wet_days res)%Z /\
     nth_error (return_period res) i =
       Some (Fin (Z2Qc (n_wet_days res + 1) / Z2Qc m))) /\
  (forall m, (1 <= m <= n_wet_days res)%Z ->
     exists i, nth_error (rank res) i = Some m) /\
  (exists i, nth_error (rank res) i = Some 1%Z /\
     nth_error (return_period res) i = Some (Fin (Z2Qc (n_wet_days res + 1)))) /\
  (exists i, nth_error (rank res) i = Some (n_wet_days res) /\
     nth_error (return_period res) i =
       Some (Fin (Z2Qc (n_wet_days res + 1) / Z2Qc (n_wet_days res)))).
Proof.
  intros E Hw.
  assert (Hex : forall m, (1 <= m <= n_wet_days res)%Z ->
                  nth_error (rank res) (Z.to_nat (m - 1)) = Some m).
  { intros m Hm. rewrite (rank_of_position _ _ _ E) by lia. f_equal. lia. }
  split; [apply (estimator_inv _ _ E)|].
  split; [|split; [|split]].
  - intros i m Hi. split.
    + apply (rank_entry _ _ _ _ E Hi).
    + apply (return_period_entry _ _ _ _ E Hi).
  - intros m Hm. eexists. now apply Hex.
  - exists (Z.to_nat (1 - 1)). split; [apply Hex; lia|].
    rewrite (return_period_entry _ _ _ 1%Z E) by (apply Hex; lia).
    unfold tau. now rewrite Z2Qc_over_1.
  - exists (Z.to_nat (n_wet_days res - 1)). split; [apply Hex; lia|].
    apply (return_period_entry _ _ _ _ E). apply Hex. lia.
Qed.

Lemma C1_return_period_of_rank_witness :
  exists res,
    estimator (H := sort_values_stable) scenario = Ok res /\
    (1 <= n_wet_days res)%Z /\
    exists i, nth_error (rank res) i = Some 1%Z /\
      nth_error (return_period res) i = Some (Fin (Z2Qc (n_wet_days res + 1))).
Proof.
  eexists. split; [reflexivity|].
  split; [lazy; discriminate|].
  apply (C1_return_period_of_rank (H := sort_values_stable) scenario).
  - reflexivity.
  - lazy; discriminate.
Defined.



(** C3 does not hold: pandas sorts in descending order by reversing the
    column, sorting it in ascending order with numpy's default
    [kind='quicksort'] and reversing the result, and numpy's network for
    short arrays moves equal keys past each other. On
    [[1, 1, 1, 1, 1, 1, 2]] the sorted frame holds the days
    7, 2, 1, 3, 4, 5, 6: day 2 has rank 2 and day 1 has rank 3. *)
Lemma C3_counterexample :
  (exists res,
     estimator (H := sort_values_quicksort) (map Z2Qc [1; 1; 1; 1; 1; 1; 2]%Z) = Ok res /\
     map day (df_sorted res) = [7; 2; 1; 3; 4; 5; 6]%Z /\
     rank res = [1; 2; 3; 4; 5; 6; 7]%Z) /\
  ~ ties_in_input_order (H := sort_values_quicksort)
      (map Z2Qc [1; 1; 1; 1; 1; 1; 2]%Z).
Proof.
  pose proof (estimator_run (H := sort_values_quicksort)
                (map Z2Qc [1; 1; 1; 1; 1; 1; 2]%Z)) as E.
  cbv zeta in E. specialize (E ltac:(discriminate)).
  split.
  - eexists. split; [exact E|]. cbn [df_sorted rank].
    split; vm_compute; reflexivity.
  - intros Hties.
    specialize (Hties _ 2%nat 1%nat
                  {| day := 1; precipitation := Z2Qc 1 |}
                  {| day := 2; precipitation := Z2Qc 1 |} 3%Z 2%Z E).
    cbn [df_sorted rank] in Hties.
    assert (H : (3 < 2)%Z); [|lia].
    apply Hties.
    + vm_compute. reflexivity.
    + vm_compute. reflexivity.
    + vm_compute. reflexivity.
    + vm_compute. reflexivity.
    + reflexivity.
    + cbn. lia.
Qed.

(** C3, amended. The ranked frame is a permutation of the wet subset in
    non-increasing order of amount: of two wet observations the one with the
    strictly larger amount has the smaller rank, and a smaller rank never
    goes with a smaller amount. The order among equal amounts is left to the
    sorting algorithm. *)
Theorem C3_ranks_follow_descending_amounts `{SortValues}
  (amounts : list Qc) (res : ranked) :
  estimator amounts = Ok res ->
  Permutation (dfwet (df amounts)) (df_sorted res) /\
  StronglySorted descending (df_sorted res) /\
  forall i j r s m1 m2,
    nth_error (df_sorted res) i = Some r ->
    nth_error (df_sorted res) j = Some s ->
    nth_error (rank res) i = Some m1 ->
    nth_error (rank res) j = Some m2 ->
    (precipitation s < precipitation r -> (m1 < m2)%Z) /\
    ((m1 < m2)%Z -> precipitation s <= precipitation r).
Proof.
  intros E. destruct (estimator_inv _ _ E) as (_ & _ & _ & _ & Hs & _).
  assert (Hsorted : StronglySorted descending (df_sorted res))
    by (rewrite Hs; apply sort_values_sorted).
  split; [rewrite Hs; apply sort_values_perm|]. split; [assumption|].
  intros i j r s m1 m2 Hr Hs' H1 H2.
  destruct (rank_entry _ _ _ _ E H1) as [-> _].
  destruct (rank_entry _ _ _ _ E H2) as [-> _].
  split.
  - intros Hlt. destruct (Nat.lt_trichotomy i j) as [Hij|[->|Hji]]; [lia | |].
    + rewrite Hr in Hs'. injection Hs' as <-. now apply Qclt_not_eq in Hlt.
    + pose proof (StronglySorted_nth_error _ _ _ _ _ _ Hsorted Hji Hs' Hr) as Hle.
      unfold descending in Hle. now apply Qclt_not_le in Hlt.
  - intros Hlt.
    apply (StronglySorted_nth_error _ _ i j r s Hsorted); [lia | assumption | assumption].
Qed.

Lemma C3_ranks_follow_descending_amounts_witness :
  exists res,
    estimator (H := sort_values_stable) scenario = Ok res /\
    StronglySorted descending (df_sorted res).
Proof.
  eexists. split; [reflexivity|].
  apply (C3_ranks_follow_descending_amounts (H := sort_values_stable) scenario).
  reflexivity.
Defined.

(** C4 does not hold: the series [[0]] has no wet observation and the
    series [[-1, 5]] has a negative amount, and the estimator returns a
    result on both. *)
Lemma C4_counterexample :
  ~ fails_exactly_on_invalid_input (H := sort_values_stable) [Z2Qc 0] /\
  ~ fails_exactly_on_invalid_input (H := sort_values_stable) [Z2Qc (-1); Z2Qc 5].
Proof.
  split; intros [_ Hfail].
  - destruct Hfail as [e He]; [|discriminate He].
    right. left. reflexivity.
  - destruct Hfail as [e He]; [|discriminate He].
    right. right. exists (Z2Qc (-1)). split; [now left | reflexivity].
Qed.

(** C4, amended. The estimator fails exactly when the series is empty, with
    the [ZeroDivisionError] of [n_wet_days / n_days]. On every other series
    it returns a complete result: [N_wet] counts the positive amounts (zero
    and negative amounts are dropped by the mask), all columns have [N_wet]
    entries, [p_wet] and every entry of the three computed columns are
    finite numbers, and [p_wet = 0] when no amount is positive. *)
Theorem C4_fails_only_on_the_empty_series `{SortValues} (amounts : list Qc) :
  ((exists e, estimator amounts = Raise e) <-> amounts = []) /\
  (amounts = [] -> estimator amounts = Raise ZeroDivisionError) /\
  (amounts <> [] ->
   exists res,
     estimator amounts = Ok res /\
     n_wet_days res = size (filter gt_zero amounts) /\
     length (df_sorted res) = Z.to_nat (n_wet_days res) /\
     length (rank res) = Z.to_nat (n_wet_days res) /\
     length (return_period res) = Z.to_nat (n_wet_days res) /\
     length (probability res) = Z.to_nat (n_wet_days res) /\
     length (probability_annual_exceedance res) = Z.to_nat (n_wet_days res) /\
     isfinite (p_wetdays res) = true /\
     all_finite (return_period res) /\
     all_finite (probability res) /\
     all_finite (probability_annual_exceedance res) /\
     (filter gt_zero amounts = [] -> p_wetdays res = Fin 0)).
Proof.
  assert (Hrun : amounts <> [] ->
                 exists res, estimator amounts = Ok res).
  { intros Hne. eexists. now apply estimator_run. }
  split; [|split].
  - split.
    + intros [e He]. destruct amounts as [|x l]; [reflexivity|].
      destruct Hrun as [res Hres]; [discriminate | congruence].
    + intros ->. eexists. apply estimator_nil.
  - intros ->. apply estimator_nil.
  - intros Hne. destruct (Hrun Hne) as [res E]. exists res.
    destruct (estimator_inv _ _ E) as (_ & _ & Hw & Hpw & _).
    destruct (columns_length _ _ E) as (Lr & Ls & Lrp & Lp & La).
    assert (Hrk : forall (A : Type) (col : list A) x,
               length col = Z.to_nat (n_wet_days res) ->
               In x col ->
               exists i m, nth_error col i = Some x /\ nth_error (rank res) i = Some m).
    { intros A col x L Hin. apply In_nth_error in Hin as [i Hi].
      assert (i < length col)%nat by (apply nth_error_Some; congruence).
      destruct (rank_defined _ _ i E) as [m Hm]; [lia|]. now exists i, m. }
    repeat split; try assumption.
    + rewrite Hw. unfold size. now rewrite dfwet_count.
    + now rewrite Hpw.
    + apply Forall_forall. intros x Hin.
      destruct (Hrk _ _ _ Lrp Hin) as (i & m & Hx & Hm).
      rewrite (return_period_entry _ _ _ _ E Hm) in Hx. now injection Hx as <-.
    + apply Forall_forall. intros x Hin.
      destruct (Hrk _ _ _ Lp Hin) as (i & m & Hx & Hm).
      rewrite (probability_entry _ _ _ _ E Hm) in Hx. now injection Hx as <-.
    + apply Forall_forall. intros x Hin.
      destruct (Hrk _ _ _ La Hin) as (i & m & Hx & Hm).
      rewrite (annual_entry _ _ _ _ E Hm) in Hx. now injection Hx as <-.
    + intros Hdry. rewrite Hpw, Hw. unfold size. rewrite dfwet_count, Hdry.
      cbn [length Z.of_nat]. change (Z2Qc 0) with 0. unfold Qcdiv.
      now rewrite Qcmult_0_l.
Qed.

(** C5 does not hold on the numbers the cells compute: with eight wet days
    the probability of rank 7 is the double [1 / (9 / 7)], which is
    0.7777777777777777, and not the double [7 / 9], which is
    0.7777777777777778. *)
Lemma C5_counterexample :
  exists res,
    estimator (H := sort_values_stable) eight_wet_days = Ok res /\
    n_wet_days res = 8%Z /\
    nth_error (rank res) 6 = Some 7%Z /\
    ~ probability_is_the_plotting_position res.
Proof.
  pose proof (estimator_run (H := sort_values_stable) eight_wet_days) as E.
  cbv zeta in E. specialize (E ltac:(discriminate)).
  eexists. split; [exact E|]. set (res := Build_ranked _ _ _ _ _ _ _ _) in *.
  assert (Hw : n_wet_days res = 8%Z) by reflexivity.
  assert (Hr : nth_error (rank res) 6 = Some 7%Z) by reflexivity.
  split; [exact Hw|]. split; [exact Hr|].
  intros Hclaim.
  assert (Hp : nth_error (Binary64.probability res) 6 =
               Some (1 / (Binary64.of_int 9 / Binary64.of_int 7))%float)
    by reflexivity.
  specialize (Hclaim 6%nat 7%Z _ Hr Hp). rewrite Hw in Hclaim.
  assert (F : PrimFloat.eqb (1 / (Binary64.of_int 9 / Binary64.of_int 7))
                (Binary64.of_int 7 / Binary64.of_int (8 + 1)) = false)
    by (vm_compute; reflexivity).
  rewrite F in Hclaim. discriminate Hclaim.
Qed.

(** C5, amended. In exact arithmetic the per-event probability, computed as
    [1 / return_period], equals [m / (N_wet + 1)] for the record of every
    rank [m] in [1 .. N_wet], where [N_wet] is the number of positive
    amounts and the probability column has [N_wet] entries. *)
Theorem C5_probability_is_reciprocal `{SortValues}
  (amounts : list Qc) (res : ranked) :
  estimator amounts = Ok res ->
  n_wet_days res = size (filter gt_zero amounts) /\
  length (probability res) = Z.to_nat (n_wet_days res) /\
  (forall m, (1 <= m <= n_wet_days res)%Z ->
     exists i t,
       nth_error (rank res) i = Some m /\
       nth_error (return_period res) i = Some t /\
       nth_error (probability res) i = Some (true_divide (of_int 1) t) /\
       true_divide (of_int 1) t = Fin (Z2Qc m / Z2Qc (n_wet_days res + 1))) /\
  (forall i m, nth_error (rank res) i = Some m ->
     exists t,
       nth_error (return_period res) i = Some t /\
       nth_error (probability res) i = Some (true_divide (of_int 1) t) /\
       true_divide (of_int 1) t = Fin (Z2Qc m / Z2Qc (n_wet_days res + 1))).
Proof.
  intros E. destruct (estimator_inv _ _ E) as (_ & _ & Hw & _).
  destruct (columns_length _ _ E) as (_ & _ & _ & Lp & _).
  assert (Hall : forall i m, nth_error (rank res) i = Some m ->
            exists t,
              nth_error (return_period res) i = Some t /\
              nth_error (probability res) i = Some (true_divide (of_int 1) t) /\
              true_divide (of_int 1) t = Fin (Z2Qc m / Z2Qc (n_wet_days res + 1))).
  { intros i m Hi. exists (Fin (tau (n_wet_days res) m)).
    destruct (rank_entry _ _ _ _ E Hi) as [_ Hm].
    split; [apply (return_period_entry _ _ _ _ E Hi)|].
    rewrite true_divide_tau by lia.
    split; [apply (probability_entry _ _ _ _ E Hi) | reflexivity]. }
  split; [rewrite Hw; unfold size; now rewrite dfwet_count|].
  split; [assumption|]. split; [|assumption].
  intros m Hm.
  assert (Hi : nth_error (rank res) (Z.to_nat (m - 1)) = Some m).
  { rewrite (rank_of_position _ _ _ E) by lia. f_equal. lia. }
  destruct (Hall _ _ Hi) as (t & Ht & Hp & Heq).
  now exists (Z.to_nat (m - 1)), t.
Qed.

Lemma C5_probability_is_reciprocal_witness :
  exists res,
    estimator (H := sort_values_stable) scenario = Ok res /\
    n_wet_days res = 3%Z /\
    exists i t,
      nth_error (rank res) i = Some 3%Z /\
      nth_error (return_period res) i = Some t /\
      nth_error (probability res) i = Some (true_divide (of_int 1) t) /\
      true_divide (of_int 1) t = Fin (Z2Qc 3 / Z2Qc (n_wet_days res + 1)).
Proof.
  eexists. split; [reflexivity|].
  destruct (C5_probability_is_reciprocal (H := sort_values_stable) scenario _ eq_refl)
    as (Hw & _ & Hrank & _).
  split; [exact Hw|].
  exact (Hrank 3%Z (conj (Zle_bool_imp_le 1 3 eq_refl) (Z.le_refl 3))).
Defined.




(** C7. The ranks given to the wet subset are a permutation of
    [1, ..., N_wet]: one rank per sorted wet record, no rank twice, and an
    integer is a rank exactly when it lies in that range. *)
Theorem C7_ranks_are_a_permutation `{SortValues} (amounts : list Qc) (res : ranked) :
  estimator amounts = Ok res ->
  Permutation (dfwet (df amounts)) (df_sorted res) /\
  length (rank res) = length (df_sorted res) /\
  Permutation (rank res) (map Z.of_nat (seq 1 (Z.to_nat (n_wet_days res)))) /\
  NoDup (rank res) /\
  (forall m, In m (rank res) <-> (1 <= m <= n_wet_days res)%Z).
Proof.
  intros E.
  destruct (estimator_inv _ _ E) as (_ & _ & Hw & _ & Hs & Hr & _).
  destruct (columns_length _ _ E) as (Hlr & Hls & _).
  assert (Heq : rank res = map Z.of_nat (seq 1 (Z.to_nat (n_wet_days res)))).
  { rewrite Hr. unfold arange.
    replace (Z.to_nat (n_wet_days res + 1 - 1)) with (Z.to_nat (n_wet_days res)) by lia.
    rewrite <- seq_shift, map_map. apply map_ext. intros k. lia. }
  split; [rewrite Hs; apply sort_values_perm|].
  split; [congruence|].
  split; [now rewrite Heq|].
  split.
  - rewrite Heq. apply NoDup_map_NoDup_ForallPairs; [|apply seq_NoDup].
    intros a b _ _. apply Nat2Z.inj.
  - intros m. rewrite Heq, in_map_iff. split.
    + intros (k & <- & Hk). apply in_seq in Hk. lia.
    + intros Hm. exists (Z.to_nat m). split; [lia|]. apply in_seq. lia.
Qed.

Lemma C7_ranks_are_a_permutation_witness :
  exists res,
    estimator (H := sort_values_stable) scenario = Ok res /\
    NoDup (rank res) /\
    (forall m, In m (rank res) <-> (1 <= m <= 3)%Z).
Proof.
  eexists. split; [reflexivity|].
  destruct (C7_ranks_are_a_permutation (H := sort_values_stable) scenario _ eq_refl)
    as (_ & _ & _ & Hnd & Hin).
  split; [exact Hnd | exact Hin].
Defined.

(** C8 does not hold: in the worked scenario rank 1 has return period 4
    and rank 2 has return period 2. *)
Lemma C8_counterexample :
  exists res,
    estimator (H := sort_values_stable) scenario = Ok res /\
    (2 <= n_wet_days res)%Z /\
    ~ tau_nondecreasing_in_rank res.
Proof.
  pose proof (estimator_run (H := sort_values_stable) scenario) as E.
  cbv zeta in E. specialize (E ltac:(discriminate)).
  eexists. split; [exact E|]. set (res := Build_ranked _ _ _ _ _ _ _ _) in *.
  assert (Hw : n_wet_days res = 3%Z) by reflexivity.
  assert (H1 : nth_error (rank res) 0 = Some 1%Z) by reflexivity.
  assert (H2 : nth_error (rank res) 1 = Some 2%Z) by reflexivity.
  split; [lia|]. intros Hmono.
  pose proof (Hmono _ _ _ _ _ _ H1 H2
                (return_period_entry _ _ _ _ E H1)
                (return_period_entry _ _ _ _ E H2) ltac:(lia)) as Hle.
  revert Hle. apply Qclt_not_le, tau_decreasing; lia.
Qed.

(** C8, amended. The return period is non-increasing, and in fact strictly
    decreasing, as the rank increases: [m1 < m2] implies
    [tau(m2) < tau(m1)]. *)
Theorem C8_return_period_decreases_with_rank `{SortValues}
  (amounts : list Qc) (res : ranked) (i j : nat) (m1 m2 : Z) (t1 t2 : Qc) :
  estimator amounts = Ok res ->
  nth_error (rank res) i = Some m1 ->
  nth_error (rank res) j = Some m2 ->
  nth_error (return_period res) i = Some (Fin t1) ->
  nth_error (return_period res) j = Some (Fin t2) ->
  (m1 < m2)%Z ->
  t2 < t1 /\ t2 <= t1.
Proof.
  intros E Hi Hj Ht1 Ht2 Hlt.
  rewrite (return_period_entry _ _ _ _ E Hi) in Ht1.
  rewrite (return_period_entry _ _ _ _ E Hj) in Ht2.
  injection Ht1 as <-. injection Ht2 as <-.
  destruct (rank_entry _ _ _ _ E Hi) as [_ H1].
  destruct (rank_entry _ _ _ _ E Hj) as [_ H2].
  assert (Hd : tau (n_wet_days res) m2 < tau (n_wet_days res) m1)
    by (apply tau_decreasing; lia).
  split; [assumption | now apply Qclt_le_weak].
Qed.

Lemma C8_return_period_decreases_with_rank_witness :
  exists res t1 t2,
    estimator (H := sort_values_stable) scenario = Ok res /\
    nth_error (return_period res) 0 = Some (Fin t1) /\
    nth_error (return_period res) 2 = Some (Fin t2) /\
    t2 < t1 /\ t2 <= t1.
Proof.
  eexists. eexists. eexists. split; [reflexivity|].
  split; [reflexivity|]. split; [reflexivity|].
  eapply (C8_return_period_decreases_with_rank (H := sort_values_stable)
            scenario _ 0 2 1%Z 3%Z); reflexivity.
Defined.

(** C9. On [amounts = [0, 5, 0, 20, 10]], whatever the sorting algorithm:
    [N = 5], the wet subset is [[5, 20, 10]], [N_wet = 3], the sorted
    amounts are [[20, 10, 5]] (days 4, 5, 2), the ranks [[1, 2, 3]], the
    return periods [[4, 2, 4/3]], the probabilities [[0.25, 0.5, 0.75]] and
    [p_wet = 0.6]. *)
Theorem C9_worked_scenario `{SortValues} :
  exists res,
    estimator scenario = Ok res /\
    n_days res = 5%Z /\
    n_wet_days res = 3%Z /\
    map precipitation (dfwet (df scenario)) = map Z2Qc [5; 20; 10]%Z /\
    map precipitation (df_sorted res) = map Z2Qc [20; 10; 5]%Z /\
    map day (df_sorted res) = [4; 5; 2]%Z /\
    rank res = [1; 2; 3]%Z /\
    return_period res = [Fin (Z2Qc 4); Fin (Z2Qc 2); Fin (Z2Qc 4 / Z2Qc 3)] /\
    probability res =
      [Fin (Z2Qc 25 / Z2Qc 100); Fin (Z2Qc 5 / Z2Qc 10); Fin (Z2Qc 75 / Z2Qc 100)] /\
    p_wetdays res = Fin (Z2Qc 6 / Z2Qc 10).
Proof.
  assert (Hs : sort_values (dfwet (df scenario)) =
               [ {| day := 4; precipitation := Z2Qc 20 |};
                 {| day := 5; precipitation := Z2Qc 10 |};
                 {| day := 2; precipitation := Z2Qc 5 |} ]).
  { symmetry. apply descending_sort_unique.
    - repeat constructor; unfold descending; cbn; discriminate.
    - apply sort_values_sorted.
    - rewrite <- sort_values_perm.
      change (dfwet (df scenario))
        with ([ {| day := 2; precipitation := Z2Qc 5 |} ] ++
              [ {| day := 4; precipitation := Z2Qc 20 |};
                {| day := 5; precipitation := Z2Qc 10 |} ]).
      apply Permutation_sym, Permutation_cons_append.
    - cbn [map precipitation]. repeat apply NoDup_cons; try apply NoDup_nil; cbn [In].
      + intros [E|[E|[]]]; qc_neq E.
      + intros [E|[]]; qc_neq E.
      + intros []. }
  eexists. split; [apply estimator_run; discriminate|].
  cbn [n_days n_wet_days p_wetdays df_sorted rank return_period probability].
  rewrite Hs.
  repeat split; try reflexivity; vm_compute;
    repeat (apply (f_equal2 cons); [apply f_equal, Qc_is_canon; reflexivity|]);
    try reflexivity.
  apply f_equal, Qc_is_canon. reflexivity.
Qed.

(** C10. With at least one wet observation, in exact arithmetic: every
    per-event probability [p] has [0 < p <= N_wet / (N_wet + 1) < 1], every
    annual probability lies strictly between 0 and 1, and every return
    period is at least [(N_wet + 1) / N_wet > 1]. *)
Theorem C10_open_unit_interval `{SortValues} (amounts : list Qc) (res : ranked) :
  estimator amounts = Ok res ->
  (1 <= n_wet_days res)%Z ->
  let n_wet := n_wet_days res in
  (forall i x, nth_error (probability res) i = Some x ->
     exists p, x = Fin p /\ 0 < p /\ p <= Z2Qc n_wet / Z2Qc (n_wet + 1)) /\
  Z2Qc n_wet / Z2Qc (n_wet + 1) < 1 /\
  (forall i x, nth_error (probability_annual_exceedance res) i = Some x ->
     exists a, x = Fin a /\ 0 < a /\ a < 1) /\
  (forall i x, nth_error (return_period res) i = Some x ->
     exists t, x = Fin t /\ Z2Qc (n_wet + 1) / Z2Qc n_wet <= t) /\
  1 < Z2Qc (n_wet + 1) / Z2Qc n_wet.
Proof.
  intros E Hw n_wet.
  destruct (columns_length _ _ E) as (_ & _ & Lrp & Lp & La).
  destruct (n_wet_days_bounds _ _ E) as [Hnw Hn].
  assert (Hrk : forall (A : Type) (col : list A) i x,
             length col = Z.to_nat (n_wet_days res) ->
             nth_error col i = Some x ->
             exists m, nth_error (rank res) i = Some m /\ (1 <= m <= n_wet)%Z).
  { intros A col i x L Hi.
    assert (i < length col)%nat by (apply nth_error_Some; congruence).
    destruct (rank_defined _ _ i E) as [m Hm]; [lia|].
    exists m. split; [assumption | apply (rank_entry _ _ _ _ E Hm)]. }
  split; [|split; [|split; [|split]]].
  - intros i x Hi. destruct (Hrk _ _ _ _ Lp Hi) as (m & Hm & Hb).
    rewrite (probability_entry _ _ _ _ E Hm) in Hi. injection Hi as <-.
    exists (p_event n_wet m). split; [reflexivity|].
    destruct (p_event_bounds n_wet m Hb) as (? & ? & _). now split.
  - apply fraction_lt_1; lia.
  - intros i x Hi. destruct (Hrk _ _ _ _ La Hi) as (m & Hm & Hb).
    rewrite (annual_entry _ _ _ _ E Hm) in Hi. injection Hi as <-.
    eexists. split; [reflexivity|].
    destruct (p_event_bounds n_wet m Hb) as (P0 & P1 & P2).
    destruct (p_wet_bounds n_wet (n_days res)) as [W0 W1]; [unfold n_wet; lia|].
    apply annualize_in_unit_interval; try assumption.
    now apply Qcle_lt_trans with (Z2Qc n_wet / Z2Qc (n_wet + 1)).
  - intros i x Hi. destruct (Hrk _ _ _ _ Lrp Hi) as (m & Hm & Hb).
    rewrite (return_period_entry _ _ _ _ E Hm) in Hi. injection Hi as <-.
    eexists. split; [reflexivity|]. apply (tau_bounds n_wet m Hb).
  - apply fraction_gt_1; lia.
Qed.

Lemma C10_open_unit_interval_witness :
  exists res,
    estimator (H := sort_values_stable) scenario = Ok res /\
    (1 <= n_wet_days res)%Z /\
    (forall i x, nth_error (probability_annual_exceedance res) i = Some x ->
       exists a, x = Fin a /\ 0 < a /\ a < 1).
Proof.
  eexists. split; [reflexivity|]. split; [lazy; discriminate|].
  apply (C10_open_unit_interval (H := sort_values_stable) scenario).
  - reflexivity.
  - lazy; discriminate.
Defined.

(** ** Further properties of the two notebooks *)

Lemma nth_error_combine_Some {A B} (l1 : list A) (l2 : list B) k a b :
  nth_error l1 k = Some a ->
  nth_error l2 k = Some b ->
  nth_error (combine l1 l2) k = Some (a, b).
Proof.
  revert l2 k. induction l1 as [|x l1 IH]; intros [|y l2] [|k] Ha Hb;
    cbn in *; try discriminate; try congruence.
  now apply IH.
Qed.

Lemma nth_error_df amounts k :
  nth_error (df amounts) k =
  option_map (fun x => {| day := Z.of_nat k + 1; precipitation := x |})
             (nth_error amounts k).
Proof.
  unfold df. rewrite nth_error_map.
  destruct (nth_error amounts k) as [x|] eqn:Hx.
  - assert (Hk : (k < length amounts)%nat) by (apply nth_error_Some; congruence).
    rewrite (nth_error_combine_Some _ _ k (Z.of_nat k + 1)%Z x); [reflexivity | | exact Hx].
    rewrite nth_error_arange. destruct (Nat.ltb_spec k (length amounts)); [reflexivity | lia].
  - assert (Hc : nth_error (combine (arange 1 (Z.of_nat (length amounts) + 1)) amounts) k
                 = None).
    { apply nth_error_None. rewrite length_combine, arange_length.
      apply nth_error_None in Hx. lia. }
    now rewrite Hc.
Qed.

Lemma In_df amounts r :
  In r (df amounts) <->
  exists k, nth_error amounts k = Some (precipitation r) /\ day r = (Z.of_nat k + 1)%Z.
Proof.
  split.
  - intros Hin. apply In_nth_error in Hin as [k Hk]. exists k.
    rewrite nth_error_df in Hk. destruct (nth_error amounts k); [|discriminate].
    injection Hk as <-. now split.
  - intros (k & Hk & Hd). apply nth_error_In with k.
    rewrite nth_error_df, Hk. cbn. destruct r as [d x]. cbn in *. now subst.
Qed.

Lemma map_day_df amounts :
  map day (df amounts) = arange 1 (Z.of_nat (length amounts) + 1).
Proof.
  unfold df. rewrite map_map.
  generalize (arange 1 (Z.of_nat (length amounts) + 1)) (arange_length (length amounts)).
  induction amounts as [|x l IH]; intros [|d ds] E; cbn in *; try congruence.
  f_equal. apply IH. congruence.
Qed.

Lemma NoDup_arange n : NoDup (arange 1 (Z.of_nat n + 1)).
Proof.
  unfold arange. apply NoDup_map_NoDup_ForallPairs; [|apply seq_NoDup].
  intros a b _ _. lia.
Qed.

(** The mask keeps the days distinct. *)
Lemma dfwet_days_distinct (d : list row) :
  NoDup (map day d) -> NoDup (map day (dfwet d)).
Proof.
  unfold dfwet. induction d as [|r d IH]; intros Hd; [exact Hd|].
  cbn [filter]. cbn [map] in Hd. apply NoDup_cons_iff in Hd as [Hfresh Hd].
  destruct (gt_zero (precipitation r)); [|now apply IH].
  cbn [map]. apply NoDup_cons; [|now apply IH].
  contradict Hfresh. apply in_map_iff in Hfresh as (s & Es & Hs).
  apply in_map_iff. exists s. split; [exact Es|].
  now apply filter_In in Hs.
Qed.

Section Rows.
Context `{SortValues}.

(** X1. Every row of the ranked frame is a wet observation of the input and
    every wet observation is a row: a row's amount is the positive amount
    the series holds at the row's day (days count from 1), and no day
    occurs twice. *)
Theorem ranked_rows_are_the_wet_observations (amounts : list Qc) (res : ranked) :
  estimator amounts = Ok res ->
  (forall r, In r (df_sorted res) <->
     exists k, nth_error amounts k = Some (precipitation r) /\
               day r = (Z.of_nat k + 1)%Z /\
               0 < precipitation r) /\
  NoDup (map day (df_sorted res)).
Proof.
  intros E. destruct (estimator_inv _ _ E) as (_ & _ & _ & _ & Hs & _).
  rewrite Hs. split.
  - intros r.
    assert (Hiff : In r (sort_values (dfwet (df amounts))) <-> In r (dfwet (df amounts))).
    { split; apply Permutation_in;
        [apply Permutation_sym |]; apply sort_values_perm. }
    rewrite Hiff. unfold dfwet. rewrite filter_In, In_df, gt_zero_lt.
    split.
    + intros [(k & Hk & Hd) Hpos]. now exists k.
    + intros (k & Hk & Hd & Hpos). split; [now exists k | assumption].
  - apply (Permutation_NoDup (Permutation_map day (sort_values_perm (dfwet (df amounts))))).
    apply dfwet_days_distinct. rewrite map_day_df. apply NoDup_arange.
Qed.

End Rows.

Lemma ranked_rows_are_the_wet_observations_witness :
  exists res,
    estimator (H := sort_values_stable) scenario = Ok res /\
    NoDup (map day (df_sorted res)).
Proof.
  eexists. split; [reflexivity|].
  apply (ranked_rows_are_the_wet_observations (H := sort_values_stable) scenario).
  reflexivity.
Defined.

Lemma fraction_zero b : Z2Qc 0 / Z2Qc b = 0.
Proof. change (Z2Qc 0) with 0. unfold Qcdiv. apply Qcmult_0_l. Qed.

Lemma fraction_one b : (0 < b)%Z -> Z2Qc b / Z2Qc b = 1.
Proof. intros Hb. field. now apply Z2Qc_neq0. Qed.

Lemma filter_nil_iff {A} (p : A -> bool) (l : list A) :
  length (filter p l) = 0%nat <-> Forall (fun x => p x = false) l.
Proof.
  induction l as [|a l IH]; cbn.
  - split; [constructor | reflexivity].
  - destruct (p a) eqn:Ha; cbn.
    + split; [discriminate|]. intros Hf. inversion Hf; congruence.
    + rewrite IH. split; [now constructor | intros Hf; now inversion Hf].
Qed.

Lemma filter_all_iff {A} (p : A -> bool) (l : list A) :
  length (filter p l) = length l <-> Forall (fun x => p x = true) l.
Proof.
  induction l as [|a l IH]; cbn.
  - split; [constructor | reflexivity].
  - pose proof (filter_length_le p l) as Hle.
    destruct (p a) eqn:Ha; cbn.
    + split.
      * intros E. constructor; [assumption|]. apply IH. lia.
      * intros Hf. inversion Hf; subst. f_equal. now apply IH.
    + split; [lia|]. intros Hf. inversion Hf; congruence.
Qed.

Lemma map_precipitation_dfwet amounts :
  map precipitation (dfwet (df amounts)) = filter gt_zero amounts.
Proof.
  rewrite <- (map_precipitation_df amounts) at 2.
  unfold dfwet. now rewrite filter_map_swap.
Qed.

Section WetFraction.
Context `{SortValues}.

(** X2. The wet-day probability is a finite number between 0 and 1; it is
    0 exactly when no amount is positive and 1 exactly when every amount
    is. *)
Theorem p_wetdays_is_a_fraction (amounts : list Qc) (res : ranked) :
  estimator amounts = Ok res ->
  exists q,
    p_wetdays res = Fin q /\
    0 <= q /\ q <= 1 /\
    (q = 0 <-> Forall (fun x => gt_zero x = false) amounts) /\
    (q = 1 <-> Forall (fun x => gt_zero x = true) amounts).
Proof.
  intros E. destruct (estimator_inv _ _ E) as (Hne & Hn & Hw & Hpw & _).
  destruct (n_wet_days_bounds _ _ E) as [Hb Hn1].
  exists (Z2Qc (n_wet_days res) / Z2Qc (n_days res)).
  assert (Hcount : n_wet_days res = Z.of_nat (length (filter gt_zero amounts))).
  { rewrite Hw. unfold size. now rewrite dfwet_count. }
  split; [assumption|].
  assert (Hcases : (n_wet_days res = 0 \/ 0 < n_wet_days res)%Z) by lia.
  assert (Hcases' : (n_wet_days res = n_days res \/ n_wet_days res < n_days res)%Z) by lia.
  split; [|split; [|split]].
  - destruct Hcases as [->|Hpos].
    + rewrite fraction_zero. apply Qcle_refl.
    + apply Qclt_le_weak, fraction_pos; lia.
  - apply fraction_le_1; lia.
  - rewrite <- filter_nil_iff. split.
    + intros Hq. destruct Hcases as [H0|Hpos]; [lia|].
      pose proof (fraction_pos (n_wet_days res) (n_days res) Hpos ltac:(lia)) as Hlt.
      rewrite Hq in Hlt. now apply Qclt_not_eq in Hlt.
    + intros H0. replace (n_wet_days res) with 0%Z by lia. apply fraction_zero.
  - rewrite <- filter_all_iff. split.
    + intros Hq. destruct Hcases' as [Heq|Hlt].
      * rewrite Hn in Heq. unfold size in Heq. lia.
      * pose proof (fraction_lt_1 (n_wet_days res) (n_days res) ltac:(lia) Hlt) as Hl.
        rewrite Hq in Hl. now apply Qclt_not_eq in Hl.
    + intros Hall. replace (n_wet_days res) with (n_days res).
      * apply fraction_one. lia.
      * rewrite Hn. unfold size. lia.
Qed.

End WetFraction.

Lemma p_wetdays_is_a_fraction_witness :
  exists res q,
    estimator (H := sort_values_stable) scenario = Ok res /\
    p_wetdays res = Fin q /\ 0 <= q /\ q <= 1.
Proof.
  destruct (p_wetdays_is_a_fraction (H := sort_values_stable) scenario _ eq_refl)
    as (q & Hq & H0 & H1 & _).
  eexists. exists q. split; [reflexivity|]. split; [exact Hq|]. split; assumption.
Defined.

(** A list of keys in non-increasing order is determined by its elements. *)
Lemma sorted_keys_unique (l1 l2 : list Qc) :
  StronglySorted (fun a b => b <= a) l1 ->
  StronglySorted (fun a b => b <= a) l2 ->
  Permutation l1 l2 ->
  l1 = l2.
Proof.
  intros S1. revert l2. induction S1 as [|x l1 S1 IH Hx]; intros l2 S2 P.
  - apply Permutation_nil in P. now subst.
  - destruct l2 as [|y l2]; [apply Permutation_sym, Permutation_nil in P; discriminate|].
    inversion S2 as [|y' l2' S2' Hy]; subst.
    assert (Exy : x = y).
    { assert (Hin1 : In x (y :: l2)) by (eapply Permutation_in; [exact P | now left]).
      assert (Hin2 : In y (x :: l1))
        by (eapply Permutation_in; [apply Permutation_sym; exact P | now left]).
      rewrite Forall_forall in Hx, Hy.
      destruct Hin1 as [->|Hin1]; [reflexivity|].
      destruct Hin2 as [->|Hin2]; [reflexivity|].
      apply Qcle_antisym; [apply (Hy _ Hin1) | apply (Hx _ Hin2)]. }
    subst y. f_equal. apply IH; [assumption|].
    now apply Permutation_cons_inv in P.
Qed.

Lemma StronglySorted_map_precipitation (l : list row) :
  StronglySorted descending l ->
  StronglySorted (fun a b => b <= a) (map precipitation l).
Proof.
  induction 1 as [|r l Hs IH Hr]; cbn; constructor; [assumption|].
  rewrite Forall_map. exact Hr.
Qed.

(** X3. The probabilities are plotting positions: the ranks, the return
    periods and the per-event probabilities depend on the number of positive
    amounts only, and with the length of the series also given so do the
    wet-day probability and the annual exceedance probabilities. Neither the
    amounts themselves nor the sorting algorithm enter them. *)
Theorem columns_depend_on_the_counts_only
  (S1 S2 : SortValues) (amounts1 amounts2 : list Qc) (res1 res2 : ranked) :
  estimator (H := S1) amounts1 = Ok res1 ->
  estimator (H := S2) amounts2 = Ok res2 ->
  length (filter gt_zero amounts1) = length (filter gt_zero amounts2) ->
  rank res1 = rank res2 /\
  return_period res1 = return_period res2 /\
  probability res1 = probability res2 /\
  (length amounts1 = length amounts2 ->
   p_wetdays res1 = p_wetdays res2 /\
   probability_annual_exceedance res1 = probability_annual_exceedance res2).
Proof.
  intros E1 E2 Hc.
  destruct (estimator_inv (H := S1) _ _ E1) as (_ & Hn1 & Hw1 & Hpw1 & _ & Hr1 & Hrp1 & Hp1 & Ha1).
  destruct (estimator_inv (H := S2) _ _ E2) as (_ & Hn2 & Hw2 & Hpw2 & _ & Hr2 & Hrp2 & Hp2 & Ha2).
  assert (Hw : n_wet_days res1 = n_wet_days res2).
  { rewrite Hw1, Hw2. unfold size. now rewrite !dfwet_count, Hc. }
  assert (Hr : rank res1 = rank res2) by (now rewrite Hr1, Hr2, Hw).
  assert (Hrp : return_period res1 = return_period res2)
    by (now rewrite Hrp1, Hrp2, Hr, Hw).
  assert (Hp : probability res1 = probability res2) by (now rewrite Hp1, Hp2, Hrp).
  repeat split; try assumption.
  - rewrite Hpw1, Hpw2, Hw, Hn1, Hn2. unfold size. now rewrite H.
  - rewrite Ha1, Ha2, Hp, Hpw1, Hpw2, Hw, Hn1, Hn2. unfold size. now rewrite H.
Qed.

Lemma columns_depend_on_the_counts_only_witness :
  exists res1 res2,
    estimator (H := sort_values_stable) scenario = Ok res1 /\
    estimator (H := sort_values_antistable) (map Z2Qc [7; -1; 2; 0; 2]%Z) = Ok res2 /\
    return_period res1 = return_period res2 /\
    probability res1 = probability res2.
Proof.
  eexists. eexists. split; [reflexivity|]. split; [reflexivity|].
  destruct (columns_depend_on_the_counts_only sort_values_stable sort_values_antistable
              scenario (map Z2Qc [7; -1; 2; 0; 2]%Z) _ _ eq_refl eq_refl eq_refl)
    as (_ & Hrp & Hp & _).
  split; [exact Hrp | exact Hp].
Defined.

(** X4. Two sorting algorithms give the same column of sorted amounts and
    frames that are permutations of each other: only the days attached to
    equal amounts can differ. *)
Theorem sorted_amounts_do_not_depend_on_the_algorithm
  (S1 S2 : SortValues) (amounts : list Qc) (res1 res2 : ranked) :
  estimator (H := S1) amounts = Ok res1 ->
  estimator (H := S2) amounts = Ok res2 ->
  map precipitation (df_sorted res1) = map precipitation (df_sorted res2) /\
  Permutation (df_sorted res1) (df_sorted res2).
Proof.
  intros E1 E2.
  destruct (estimator_inv (H := S1) _ _ E1) as (_ & _ & _ & _ & Hs1 & _).
  destruct (estimator_inv (H := S2) _ _ E2) as (_ & _ & _ & _ & Hs2 & _).
  assert (P : Permutation (df_sorted res1) (df_sorted res2)).
  { rewrite Hs1, Hs2.
    rewrite <- (sort_values_perm (SortValues := S1)).
    apply (sort_values_perm (SortValues := S2)). }
  split; [|assumption].
  apply sorted_keys_unique.
  - apply StronglySorted_map_precipitation. rewrite Hs1. apply sort_values_sorted.
  - apply StronglySorted_map_precipitation. rewrite Hs2. apply sort_values_sorted.
  - now apply Permutation_map.
Qed.

Lemma sorted_amounts_do_not_depend_on_the_algorithm_witness :
  exists res1 res2,
    estimator (H := sort_values_stable) (map Z2Qc [5; 0; 5; 9]%Z) = Ok res1 /\
    estimator (H := sort_values_antistable) (map Z2Qc [5; 0; 5; 9]%Z) = Ok res2 /\
    map precipitation (df_sorted res1) = map precipitation (df_sorted res2) /\
    map day (df_sorted res1) <> map day (df_sorted res2).
Proof.
  eexists. eexists. split; [reflexivity|]. split; [reflexivity|].
  split; [|discriminate].
  apply (sorted_amounts_do_not_depend_on_the_algorithm
           sort_values_stable sort_values_antistable (map Z2Qc [5; 0; 5; 9]%Z));
    reflexivity.
Defined.

(** X5. When no two wet amounts are equal the whole result is the same for
    every sorting algorithm. *)
Theorem distinct_amounts_give_one_result
  (S1 S2 : SortValues) (amounts : list Qc) :
  NoDup (filter gt_zero amounts) ->
  estimator (H := S1) amounts = estimator (H := S2) amounts.
Proof.
  intros Hnd. destruct amounts as [|x l]; [reflexivity|].
  rewrite !estimator_run by discriminate. cbv zeta.
  do 2 f_equal.
  apply descending_sort_unique.
  - apply sort_values_sorted.
  - apply sort_values_sorted.
  - rewrite <- (sort_values_perm (SortValues := S1)).
    apply (sort_values_perm (SortValues := S2)).
  - apply (Permutation_NoDup
             (Permutation_map precipitation
                (sort_values_perm (SortValues := S1) (dfwet (df (x :: l)))))).
    now rewrite map_precipitation_dfwet.
Qed.

Lemma distinct_amounts_give_one_result_witness :
  estimator (H := sort_values_stable) scenario =
  estimator (H := sort_values_antistable) scenario.
Proof.
  apply distinct_amounts_give_one_result.
  repeat (apply NoDup_cons; [cbn [In]; intros Hin|]); try apply NoDup_nil.
  - destruct Hin as [E|[E|[]]]; qc_neq E.
  - destruct Hin as [E|[]]; qc_neq E.
  - destruct Hin.
Defined.

(** ** Monotonicity of the annualization *)

Lemma Qcpower_le_mono (a b : Qc) (n : nat) : 0 <= a -> a <= b -> a ^ n <= b ^ n.
Proof.
  intros Ha Hab. induction n as [|n IH]; [apply Qcle_refl|].
  change (a * a ^ n <= b * b ^ n).
  pose proof (Qcpower_pos a n Ha) as Hpos.
  revert IH Hpos. generalize (a ^ n) (b ^ n). intros x y.
  destruct a as [a Ca], b as [b Cb], x as [x Cx], y as [y Cy]. to_Q. intros. nra.
Qed.

Lemma Qcpower_lt_mono (a b : Qc) (n : nat) : 0 <= a -> a < b -> a ^ S n < b ^ S n.
Proof.
  intros Ha Hab. induction n as [|n IH].
  - cbn. now rewrite !Qcmult_1_r.
  - change (a * a ^ S n < b * b ^ S n).
    pose proof (Qcpower_pos a (S n) Ha) as Hpos.
    revert IH Hpos. generalize (a ^ S n) (b ^ S n). intros x y.
    destruct a as [a Ca], b as [b Cb], x as [x Cx], y as [y Cy]. to_Q. intros. nra.
Qed.

Lemma one_minus_le (x y : Qc) : x <= y -> 1 - y <= 1 - x.
Proof. destruct x as [x Cx], y as [y Cy]. to_Q. intros. lra. Qed.

Lemma one_minus_lt (x y : Qc) : x < y -> 1 - y < 1 - x.
Proof. destruct x as [x Cx], y as [y Cy]. to_Q. intros. lra. Qed.

Lemma one_minus_nonneg (x : Qc) : x <= 1 -> 0 <= 1 - x.
Proof. destruct x as [x Cx]. to_Q. intros. lra. Qed.

Lemma one_minus_le_1 (x : Qc) : 0 <= x -> 1 - x <= 1.
Proof. destruct x as [x Cx]. to_Q. intros. lra. Qed.

(** [x |-> 1 - (1 - x) ^ 365] maps [[0, 1]] to [[0, 1]] and is monotone. *)
Lemma annual_of_le (x y : Qc) :
  0 <= x -> x <= y -> y <= 1 ->
  0 <= 1 - (1 - x) ^ 365 /\
  1 - (1 - x) ^ 365 <= 1 - (1 - y) ^ 365 /\
  1 - (1 - y) ^ 365 <= 1.
Proof.
  intros Hx Hxy Hy. repeat split.
  - apply one_minus_nonneg. rewrite <- (Qcpower_1 365).
    apply Qcpower_le_mono.
    + apply one_minus_nonneg. now apply Qcle_trans with y.
    + now apply one_minus_le_1.
  - apply one_minus_le, Qcpower_le_mono; [now apply one_minus_nonneg | now apply one_minus_le].
  - apply one_minus_le_1, Qcpower_pos. now apply one_minus_nonneg.
Qed.

Lemma annual_of_lt (x y : Qc) :
  x < y -> y <= 1 -> 1 - (1 - x) ^ 365 < 1 - (1 - y) ^ 365.
Proof.
  intros Hxy Hy.
  apply one_minus_lt, Qcpower_lt_mono; [now apply one_minus_nonneg | now apply one_minus_lt].
Qed.

Lemma annual_of_pos (x : Qc) : 0 < x -> x <= 1 -> 0 < 1 - (1 - x) ^ 365.
Proof.
  intros Hx Hx1. pose proof (annual_of_lt 0 x Hx Hx1) as Hlt.
  replace (1 - (1 - 0) ^ 365) with 0 in Hlt; [assumption|].
  replace (1 - 0) with 1 by ring. rewrite Qcpower_1. ring.
Qed.

Lemma reciprocal_le (a b : Qc) : 0 < a -> a <= b -> 1 / b <= 1 / a.
Proof.
  intros Ha Hab.
  assert (Hb : 0 < b) by now apply Qclt_le_trans with a.
  pose proof (reciprocal_pos a Ha) as Hia. pose proof (reciprocal_pos b Hb) as Hib.
  assert (Ea : a * (1 / a) = 1) by (field; now apply Qclt_not_eq, not_eq_sym in Ha).
  assert (Eb : b * (1 / b) = 1) by (field; now apply Qclt_not_eq, not_eq_sym in Hb).
  revert Hia Hib Ea Eb. generalize (1 / a) (1 / b). intros u v.
  destruct a as [a Ca], b as [b Cb], u as [u Cu], v as [v Cv].
  intros Hu Hv Ea Eb.
  apply (f_equal this) in Ea, Eb. cbn [this Qcmult Q2Qc] in Ea, Eb.
  assert (Ea' : (a * u == 1)%Q) by (rewrite <- (Qred_correct (a * u)), Ea; reflexivity).
  assert (Eb' : (b * v == 1)%Q) by (rewrite <- (Qred_correct (b * v)), Eb; reflexivity).
  clear Ea Eb. to_Q. nra.
Qed.

Lemma p_event_increasing n m1 m2 :
  (0 <= n)%Z -> (m1 < m2)%Z -> p_event n m1 < p_event n m2.
Proof. intros Hn Hm. unfold p_event. apply fraction_lt; nia. Qed.

Lemma tau_times_p_event n m : (0 <= n)%Z -> (0 < m)%Z -> tau n m * p_event n m = 1.
Proof.
  intros Hn Hm. unfold tau, p_event. field. split; apply Z2Qc_neq0; lia.
Qed.

Lemma recip_p_event n m : (0 <= n)%Z -> (0 < m)%Z -> 1 / p_event n m = tau n m.
Proof.
  intros Hn Hm. unfold tau, p_event. field. split; apply Z2Qc_neq0; lia.
Qed.

Lemma p_event_pos n m : (0 <= n)%Z -> (0 < m)%Z -> 0 < p_event n m.
Proof. intros Hn Hm. unfold p_event. apply fraction_pos; lia. Qed.

Lemma Qcmult_lt_mono_pos_r (x y z : Qc) : 0 < z -> x < y -> x * z < y * z.
Proof. intros. now apply Qcmult_lt_compat_r. Qed.

Section Table.
Context `{SortValues}.

Lemma larger_amount_comes_first amounts res i j r s :
  estimator amounts = Ok res ->
  nth_error (df_sorted res) i = Some r ->
  nth_error (df_sorted res) j = Some s ->
  precipitation s < precipitation r ->
  (i < j)%nat.
Proof.
  intros E Hr Hs Hlt.
  destruct (estimator_inv _ _ E) as (_ & _ & _ & _ & Hsorted & _).
  assert (Hst : StronglySorted descending (df_sorted res))
    by (rewrite Hsorted; apply sort_values_sorted).
  destruct (Nat.lt_trichotomy i j) as [Hij|[->|Hji]]; [assumption | |].
  - rewrite Hr in Hs. injection Hs as <-. now apply Qclt_not_eq in Hlt.
  - pose proof (StronglySorted_nth_error _ _ _ _ _ _ Hst Hji Hs Hr) as Hle.
    unfold descending in Hle. now apply Qclt_not_le in Hlt.
Qed.

(** X6. A strictly larger amount has a strictly longer return period, a
    strictly smaller per-event probability and an annual exceedance
    probability that is not larger: the plotted exceedance curves do not
    rise as the amount grows. *)
Theorem larger_amounts_are_rarer (amounts : list Qc) (res : ranked)
  (i j : nat) (r s : row) :
  estimator amounts = Ok res ->
  nth_error (df_sorted res) i = Some r ->
  nth_error (df_sorted res) j = Some s ->
  precipitation s < precipitation r ->
  exists t_r t_s p_r p_s a_r a_s,
    nth_error (return_period res) i = Some (Fin t_r) /\
    nth_error (return_period res) j = Some (Fin t_s) /\
    nth_error (probability res) i = Some (Fin p_r) /\
    nth_error (probability res) j = Some (Fin p_s) /\
    nth_error (probability_annual_exceedance res) i = Some (Fin a_r) /\
    nth_error (probability_annual_exceedance res) j = Some (Fin a_s) /\
    t_s < t_r /\ p_r < p_s /\ a_r <= a_s.
Proof.
  intros E Hr Hs Hlt.
  pose proof (larger_amount_comes_first _ _ _ _ _ _ E Hr Hs Hlt) as Hij.
  destruct (columns_length _ _ E) as (_ & Ls & _).
  assert (Hj : (j < Z.to_nat (n_wet_days res))%nat)
    by (rewrite <- Ls; apply nth_error_Some; congruence).
  destruct (rank_defined _ _ i E) as [m1 H1]; [lia|].
  destruct (rank_defined _ _ j E) as [m2 H2]; [lia|].
  destruct (rank_entry _ _ _ _ E H1) as [E1 B1].
  destruct (rank_entry _ _ _ _ E H2) as [E2 B2].
  destruct (n_wet_days_bounds _ _ E) as [Bw Bn].
  set (n := n_wet_days res) in *.
  assert (Hm : (m1 < m2)%Z) by lia.
  exists (tau n m1), (tau n m2), (p_event n m1), (p_event n m2).
  eexists. eexists.
  split; [apply (return_period_entry _ _ _ _ E H1)|].
  split; [apply (return_period_entry _ _ _ _ E H2)|].
  split; [apply (probability_entry _ _ _ _ E H1)|].
  split; [apply (probability_entry _ _ _ _ E H2)|].
  split; [apply (annual_entry _ _ _ _ E H1)|].
  split; [apply (annual_entry _ _ _ _ E H2)|].
  split; [apply tau_decreasing; lia|].
  split; [apply p_event_increasing; lia|].
  unfold annualize. fold n.
  destruct (p_wet_bounds n (n_days res)) as [W0 W1]; [lia|].
  destruct (p_event_bounds n m2 B2) as (P0 & P1 & P2).
  apply Qclt_le_weak, annual_of_lt.
  - apply Qcmult_lt_compat_r; [assumption | apply p_event_increasing; lia].
  - apply Qclt_le_weak.
    apply (product_in_unit_interval (p_event n m2) (Z2Qc n / Z2Qc (n_days res)));
      try assumption.
    now apply Qcle_lt_trans with (Z2Qc n / Z2Qc (n + 1)).
Qed.

End Table.

Lemma larger_amounts_are_rarer_witness :
  exists res t_r t_s,
    estimator (H := sort_values_stable) scenario = Ok res /\
    nth_error (return_period res) 0 = Some (Fin t_r) /\
    nth_error (return_period res) 2 = Some (Fin t_s) /\
    t_s < t_r.
Proof.
  destruct (larger_amounts_are_rarer (H := sort_values_stable) scenario _ 0 2 _ _
              eq_refl eq_refl eq_refl eq_refl)
    as (t_r & t_s & _ & _ & _ & _ & H1 & H2 & _ & _ & _ & _ & Hlt & _).
  eexists. exists t_r, t_s. split; [reflexivity|].
  split; [exact H1|]. split; [exact H2 | exact Hlt].
Defined.

Lemma return_period_model_Fin (p_daily p_wet : Qc) :
  0 < annualize p_daily p_wet ->
  return_period_model (Fin p_daily) (Fin p_wet) = Fin (1 / annualize p_daily p_wet).
Proof.
  intros Hpos. unfold return_period_model. rewrite p_annual_Fin, of_int_1.
  unfold true_divide. now rewrite (compare_pos _ Hpos).
Qed.

Lemma return_period_model_zero (p_daily p_wet : Qc) :
  p_daily * p_wet = 0 ->
  return_period_model (Fin p_daily) (Fin p_wet) = PInf.
Proof.
  intros Hz. unfold return_period_model. rewrite p_annual_Fin, of_int_1.
  unfold annualize. rewrite Hz.
  replace (1 - 0) with 1 by ring. rewrite Qcpower_1.
  replace (1 - 1) with 0 by ring. reflexivity.
Qed.

(** X8. The annualization is monotone and stays in the unit interval: for
    daily probabilities [0 <= p_daily * p_wet <= p_daily' * p_wet <= 1] the
    annual probabilities are finite with [0 <= p_annual <= p_annual' <= 1]. *)
Theorem p_annual_is_monotone (p_daily p_daily' p_wet : Qc) :
  0 <= p_daily * p_wet ->
  p_daily * p_wet <= p_daily' * p_wet ->
  p_daily' * p_wet <= 1 ->
  exists a a',
    p_annual (Fin p_daily) (Fin p_wet) = Fin a /\
    p_annual (Fin p_daily') (Fin p_wet) = Fin a' /\
    0 <= a /\ a <= a' /\ a' <= 1.
Proof.
  intros H0 Hle H1.
  exists (annualize p_daily p_wet), (annualize p_daily' p_wet).
  split; [apply p_annual_Fin|]. split; [apply p_annual_Fin|].
  apply annual_of_le; assumption.
Qed.

Lemma p_annual_is_monotone_witness :
  exists a a',
    p_annual (Fin (Z2Qc 1 / Z2Qc 100)) (Fin (Z2Qc 3 / Z2Qc 10)) = Fin a /\
    p_annual (Fin (Z2Qc 1 / Z2Qc 10)) (Fin (Z2Qc 3 / Z2Qc 10)) = Fin a' /\
    0 <= a /\ a <= a' /\ a' <= 1.
Proof.
  apply p_annual_is_monotone; intros Hgt; discriminate Hgt.
Defined.

Lemma return_period_model_at_least_one_aux (x : Qc) :
  0 < x -> x <= 1 ->
  0 < 1 - (1 - x) ^ 365 /\ 1 <= 1 / (1 - (1 - x) ^ 365).
Proof.
  intros H0 H1. pose proof (annual_of_pos _ H0 H1) as A0.
  split; [assumption|].
  destruct (annual_of_le _ _ (Qclt_le_weak _ _ H0) (Qcle_refl x) H1) as (_ & _ & A1).
  replace 1 with (1 / 1) at 1 by (field; discriminate).
  now apply reciprocal_le.
Qed.

Lemma return_period_model_ge_1 (p_daily p_wet : Qc) :
  0 <= p_daily * p_wet -> p_daily * p_wet <= 1 ->
  less_equal (Fin 1) (return_period_model (Fin p_daily) (Fin p_wet)) = true.
Proof.
  intros H0 H1. destruct (Qcle_lt_or_eq _ _ H0) as [Hpos|Hz].
  - destruct (return_period_model_at_least_one_aux _ Hpos H1) as [A0 A1].
    rewrite return_period_model_Fin by exact A0. now apply less_equal_Fin.
  - rewrite return_period_model_zero by (symmetry; exact Hz). reflexivity.
Qed.

(** X9. For [0 <= p_daily * p_wet <= p_daily' * p_wet <= 1] the model
    return period is at least one year, [+inf] included, and the larger
    daily exceedance probability never has the longer return period. *)
Theorem return_period_model_at_least_one (p_daily p_daily' p_wet : Qc) :
  0 <= p_daily * p_wet ->
  p_daily * p_wet <= p_daily' * p_wet ->
  p_daily' * p_wet <= 1 ->
  less_equal (Fin 1) (return_period_model (Fin p_daily') (Fin p_wet)) = true /\
  less_equal (return_period_model (Fin p_daily') (Fin p_wet))
             (return_period_model (Fin p_daily) (Fin p_wet)) = true.
Proof.
  intros H0 Hle H1.
  assert (H0' : 0 <= p_daily' * p_wet) by now apply Qcle_trans with (p_daily * p_wet).
  split; [now apply return_period_model_ge_1|].
  destruct (Qcle_lt_or_eq _ _ H0) as [Hpos|Hz].
  - assert (Hpos' : 0 < p_daily' * p_wet)
      by now apply Qclt_le_trans with (p_daily * p_wet).
    assert (Hx1 : p_daily * p_wet <= 1) by now apply Qcle_trans with (p_daily' * p_wet).
    pose proof (annual_of_pos _ Hpos Hx1) as A0.
    pose proof (annual_of_pos _ Hpos' H1) as A0'.
    destruct (annual_of_le _ _ H0 Hle H1) as (_ & Amono & _).
    rewrite !return_period_model_Fin by assumption.
    apply less_equal_Fin. now apply reciprocal_le.
  - rewrite (return_period_model_zero p_daily) by (symmetry; exact Hz).
    destruct (Qcle_lt_or_eq _ _ H0') as [Hpos'|Hz'].
    + rewrite return_period_model_Fin by now apply annual_of_pos. reflexivity.
    + rewrite return_period_model_zero by (symmetry; exact Hz'). reflexivity.
Qed.

Lemma return_period_model_at_least_one_witness :
  less_equal (Fin 1)
    (return_period_model (Fin (Z2Qc 1 / Z2Qc 10)) (Fin (Z2Qc 3 / Z2Qc 10))) = true /\
  less_equal
    (return_period_model (Fin (Z2Qc 1 / Z2Qc 10)) (Fin (Z2Qc 3 / Z2Qc 10)))
    (return_period_model (Fin (Z2Qc 1 / Z2Qc 100)) (Fin (Z2Qc 3 / Z2Qc 10))) = true.
Proof.
  apply return_period_model_at_least_one;
    intros Hgt; discriminate Hgt.
Defined.

(** X10. At the ends of the range: a daily exceedance probability
    [p_daily * p_wet = 0] gives the annual probability 0 and the return
    period [+inf] (numpy divides by zero without raising), and
    [p_daily * p_wet = 1] gives the annual probability 1 and the return
    period 1. *)
Theorem return_period_model_edge_cases (p_daily p_wet : Qc) :
  (p_daily * p_wet = 0 ->
   p_annual (Fin p_daily) (Fin p_wet) = Fin 0 /\
   return_period_model (Fin p_daily) (Fin p_wet) = PInf) /\
  (p_daily * p_wet = 1 ->
   p_annual (Fin p_daily) (Fin p_wet) = Fin 1 /\
   return_period_model (Fin p_daily) (Fin p_wet) = Fin 1).
Proof.
  split; intros Hx.
  - split; [|now apply return_period_model_zero].
    rewrite p_annual_Fin. unfold annualize. rewrite Hx.
    replace (1 - 0) with 1 by ring. rewrite Qcpower_1.
    replace (1 - 1) with 0 by ring. reflexivity.
  - assert (Ha : annualize p_daily p_wet = 1).
    { unfold annualize. rewrite Hx. replace (1 - 1) with 0 by ring.
      rewrite Qcpower_0 by discriminate. ring. }
    split; [now rewrite p_annual_Fin, Ha|].
    rewrite return_period_model_Fin by (rewrite Ha; reflexivity).
    rewrite Ha. reflexivity.
Qed.

Lemma return_period_model_edge_cases_witness :
  return_period_model (Fin 0) (Fin (Z2Qc 3 / Z2Qc 10)) = PInf /\
  return_period_model (Fin 1) (Fin 1) = Fin 1.
Proof.
  assert (E0 : 0 * (Z2Qc 3 / Z2Qc 10) = 0) by (apply Qc_is_canon; reflexivity).
  assert (E1 : 1 * 1 = 1) by (apply Qc_is_canon; reflexivity).
  split.
  - exact (proj2 (proj1 (return_period_model_edge_cases 0 (Z2Qc 3 / Z2Qc 10)) E0)).
  - exact (proj2 (proj2 (return_period_model_edge_cases 1 1) E1)).
Defined.

Lemma daily_mean_wet_le daily_mean :
  (length (daily_mean_wet daily_mean) <= length daily_mean)%nat.
Proof. apply filter_length_le. Qed.

(** X11. The return-period cell, for a value [F] in [[0, 1]] of the fitted
    distribution function at the threshold: it raises [ZeroDivisionError] on
    an empty series; on any other series it prints a return period of at
    least one, [+inf] included, and [+inf] whenever no day exceeds 0.5 mm or
    [F = 1]. *)
Theorem return_period_cell_outcomes (daily_mean : list Qc) (F : Qc) :
  0 <= F -> F <= 1 ->
  (daily_mean = [] -> return_period_cell daily_mean (Fin F) = Raise ZeroDivisionError) /\
  (daily_mean <> [] ->
   exists r,
     return_period_cell daily_mean (Fin F) = Ok r /\
     less_equal (Fin 1) r = true /\
     (daily_mean_wet daily_mean = [] \/ F = 1 -> r = PInf)).
Proof.
  intros HF0 HF1. split; [intros ->; reflexivity|].
  intros Hne. unfold return_period_cell.
  assert (Hn : (0 < size daily_mean)%Z)
    by (unfold size; destruct daily_mean; [congruence | cbn; lia]).
  rewrite py_truediv_sizes by assumption. cbn [bind].
  rewrite of_int_1. cbn [subtract].
  pose proof (daily_mean_wet_le daily_mean) as Hle.
  set (pw := Z2Qc (size (daily_mean_wet daily_mean)) / Z2Qc (size daily_mean)).
  assert (W : 0 <= pw /\ pw <= 1).
  { unfold pw. destruct (daily_mean_wet daily_mean) as [|x l] eqn:Hwet.
    - unfold size at 1. cbn [length Z.of_nat]. rewrite fraction_zero.
      split; [apply Qcle_refl | intros Hgt; discriminate Hgt].
    - destruct (p_wet_bounds (size (x :: l)) (size daily_mean)) as [W0 W1].
      + unfold size in *. cbn [length] in *. lia.
      + split; [now apply Qclt_le_weak | assumption]. }
  destruct W as [W0 W1].
  assert (P0 : 0 <= 1 - F) by now apply one_minus_nonneg.
  assert (P1 : 1 - F <= 1) by now apply one_minus_le_1.
  assert (X0 : 0 <= (1 - F) * pw).
  { revert P0 W0. generalize (1 - F). intros [x Cx]. destruct pw as [w Cw]. to_Q.
    intros. nra. }
  assert (X1 : (1 - F) * pw <= 1).
  { revert P0 P1 W0 W1. generalize (1 - F). intros [x Cx]. destruct pw as [w Cw]. to_Q.
    intros. nra. }
  eexists. split; [reflexivity|]. split; [now apply return_period_model_ge_1|].
  intros Hcase. apply return_period_model_zero.
  destruct Hcase as [Hdry| ->].
  - unfold pw. rewrite Hdry. unfold size at 1. cbn [length Z.of_nat].
    rewrite fraction_zero. ring.
  - ring.
Qed.

Lemma return_period_cell_outcomes_witness :
  exists r,
    return_period_cell (map Z2Qc [0; 3; 1; 0]%Z) (Fin (Z2Qc 9 / Z2Qc 10)) = Ok r /\
    less_equal (Fin 1) r = true.
Proof.
  assert (H0 : 0 <= Z2Qc 9 / Z2Qc 10) by (intros Hgt; discriminate Hgt).
  assert (H1 : Z2Qc 9 / Z2Qc 10 <= 1) by (intros Hgt; discriminate Hgt).
  assert (Hne : map Z2Qc [0; 3; 1; 0]%Z <> []) by discriminate.
  destruct (proj2 (return_period_cell_outcomes _ _ H0 H1) Hne) as (r & Hr & Hge & _).
  exists r. split; [exact Hr | exact Hge].
Defined.

Lemma synthetic_precipitation_length wetday rainfall :
  length wetday = length rainfall ->
  length (synthetic_precipitation wetday rainfall) = length wetday.
Proof.
  intros E. unfold synthetic_precipitation. rewrite length_map, length_combine. lia.
Qed.

Lemma gt_zero_0 : gt_zero 0 = false.
Proof. reflexivity. Qed.

Lemma synthetic_precipitation_wet wetday rainfall :
  length wetday = length rainfall ->
  Forall (fun w => w = 0 \/ w = 1)%Z wetday ->
  Forall (fun x => 0 <= x) rainfall ->
  Forall (fun x => 0 <= x) (synthetic_precipitation wetday rainfall) /\
  (length (filter gt_zero (synthetic_precipitation wetday rainfall))
   <= count_occ Z.eq_dec wetday 1%Z)%nat /\
  (Forall (fun x => 0 < x) rainfall ->
   length (filter gt_zero (synthetic_precipitation wetday rainfall))
   = count_occ Z.eq_dec wetday 1%Z).
Proof.
  revert rainfall. induction wetday as [|w ws IH]; intros [|x xs] E Hw Hx;
    try discriminate.
  - cbn. repeat split; auto.
  - inversion Hw as [|? ? Hw1 Hws]; subst. inversion Hx as [|? ? Hx1 Hxs]; subst.
    destruct (IH xs ltac:(cbn in E; lia) Hws Hxs) as (IH1 & IH2 & IH3).
    unfold synthetic_precipitation in *. cbn [combine map filter count_occ].
    destruct Hw1 as [-> | ->].
    + change (Z2Qc 0) with 0. rewrite Qcmult_0_l, gt_zero_0.
      destruct (Z.eq_dec 0 1) as [Hbad|_]; [discriminate Hbad|].
      repeat split.
      * constructor; [apply Qcle_refl | assumption].
      * assumption.
      * intros Hpos. inversion Hpos; subst. now apply IH3.
    + change (Z2Qc 1) with 1. rewrite Qcmult_1_l.
      destruct (Z.eq_dec 1 1) as [_|Hbad]; [|congruence].
      repeat split.
      * now constructor.
      * destruct (gt_zero x); cbn [length]; lia.
      * intros Hpos. inversion Hpos as [|? ? Hxpos Hxspos]; subst.
        rewrite (proj2 (gt_zero_lt x) Hxpos). cbn [length]. f_equal. now apply IH3.
Qed.

(** X12. For the synthetic series [wetday * rainfall] with draws of equal
    length, [wetday] in [{0, 1}] and [rainfall >= 0]: the frame has one row
    per draw, no amount is negative, every ranked row has a positive amount,
    the wet days number at most the binomial successes, and exactly the
    binomial successes when every gamma draw is positive. *)
Theorem synthetic_wet_days_are_the_binomial_successes `{SortValues}
  (wetday : list Z) (rainfall : list Qc) (res : ranked) :
  length wetday = length rainfall ->
  Forall (fun w => w = 0 \/ w = 1)%Z wetday ->
  Forall (fun x => 0 <= x) rainfall ->
  estimator (synthetic_precipitation wetday rainfall) = Ok res ->
  n_days res = size wetday /\
  Forall (fun r => 0 < precipitation r) (df_sorted res) /\
  Forall (fun x => 0 <= x) (synthetic_precipitation wetday rainfall) /\
  (n_wet_days res <= Z.of_nat (count_occ Z.eq_dec wetday 1%Z))%Z /\
  (Forall (fun x => 0 < x) rainfall ->
   n_wet_days res = Z.of_nat (count_occ Z.eq_dec wetday 1%Z)).
Proof.
  intros El Hw Hx E.
  destruct (estimator_inv _ _ E) as (_ & Hn & Hnw & _ & Hs & _).
  destruct (synthetic_precipitation_wet _ _ El Hw Hx) as (S1 & S2 & S3).
  assert (Hcount : n_wet_days res =
                   Z.of_nat (length (filter gt_zero (synthetic_precipitation wetday rainfall)))).
  { rewrite Hnw. unfold size. now rewrite dfwet_count. }
  split; [|split; [|split; [|split]]].
  - rewrite Hn. unfold size. now rewrite synthetic_precipitation_length.
  - rewrite Hs. apply Forall_forall. intros r Hin.
    apply (Permutation_in _ (Permutation_sym (sort_values_perm _))) in Hin.
    unfold dfwet in Hin. apply filter_In in Hin as [_ Hpos]. now apply gt_zero_lt.
  - assumption.
  - lia.
  - intros Hpos. rewrite Hcount. f_equal. now apply S3.
Qed.

Lemma synthetic_wet_days_are_the_binomial_successes_witness :
  exists res,
    estimator (H := sort_values_stable)
      (synthetic_precipitation [1; 0; 1; 1]%Z (map Z2Qc [4; 7; 2; 9]%Z)) = Ok res /\
    n_days res = 4%Z /\ n_wet_days res = 3%Z.
Proof.
  assert (Hw : Forall (fun w => w = 0 \/ w = 1)%Z [1; 0; 1; 1]%Z)
    by (repeat constructor; auto).
  assert (Hx : Forall (fun x => 0 <= x) (map Z2Qc [4; 7; 2; 9]%Z))
    by (repeat constructor; intros Hgt; discriminate Hgt).
  assert (Hp : Forall (fun x => 0 < x) (map Z2Qc [4; 7; 2; 9]%Z))
    by (repeat constructor).
  destruct (synthetic_wet_days_are_the_binomial_successes (H := sort_values_stable)
              [1; 0; 1; 1]%Z (map Z2Qc [4; 7; 2; 9]%Z) _ eq_refl Hw Hx eq_refl)
    as (Hn & _ & _ & _ & Heq).
  eexists. split; [reflexivity|]. split; [exact Hn | exact (Heq Hp)].
Defined.

